(** * django-mysqlpool: the pooled [connect] of [backends/mysqlpool/base.py]

    A shallow embedding of the module's four pieces:

    - [HashableDict], the [dict] subclass that gives the [conv] and [ssl]
      arguments a hash ([Py], [HashableDict]);
    - [QueuePool._do_get], the acquisition of one connection ([QueuePool]);
    - [get_pool], the module-level manager and its fork check ([Registry]);
    - [connect], which wraps [conv] and [ssl] and asks the manager for a
      connection ([Registry]).

    The module rests on SQLAlchemy's [pool] package and on the Python
    runtime.  What the code calls there ([hash], [dict], [Queue.get],
    [_inc_overflow], [pool.manage], [pool.clear_managers], ...) is written
    out next to its caller, each with a comment that says which library
    operation it stands for. *)

From Stdlib Require Import ZArith Lia Bool List String Ascii.
From stdpp Require Import base option list gmap strings.
Import ListNotations.

Set Warnings "-register-all".

(** ** Python values *)

Module Py.
Local Open Scope Z_scope.

(** The values that travel in connection parameters and in the [conv] and
    [ssl] mappings: [None], integers (field type codes, ports, flags),
    strings (host names, paths), objects compared by identity (functions,
    type objects, converter callables), tuples and lists. *)
Inductive pyval : Type :=
| VNone
| VInt (z : Z)
| VStr (s : string)
| VObj (id : positive)
| VTuple (xs : list pyval)
| VList (xs : list pyval).

(** Python's [==] on these values.  A tuple never equals a list. *)
Fixpoint pyval_eqb (a b : pyval) : bool :=
  let fix all2 (xs ys : list pyval) : bool :=
    match xs, ys with
    | [], [] => true
    | x :: xs', y :: ys' => pyval_eqb x y && all2 xs' ys'
    | _, _ => false
    end in
  match a, b with
  | VNone, VNone => true
  | VInt x, VInt y => Z.eqb x y
  | VStr x, VStr y => String.eqb x y
  | VObj x, VObj y => Pos.eqb x y
  | VTuple xs, VTuple ys => all2 xs ys
  | VList xs, VList ys => all2 xs ys
  | _, _ => false
  end.

(** Truth value testing, as in [if conv:]. *)
Definition truthy (v : pyval) : bool :=
  match v with
  | VNone => false
  | VInt z => negb (Z.eqb z 0)
  | VStr s => negb (String.eqb s EmptyString)
  | VObj _ => true
  | VTuple xs | VList xs => match xs with [] => false | _ => true end
  end.

(** [iter(value)] succeeds on strings, tuples and lists and raises
    [TypeError] on [None], integers and plain objects. *)
Definition iter (v : pyval) : option (list pyval) :=
  match v with
  | VStr s => Some (map (fun c => VStr (String c EmptyString)) (list_ascii_of_string s))
  | VTuple xs | VList xs => Some xs
  | VNone | VInt _ | VObj _ => None
  end.

(** [tuple(v)], [None] standing for the [TypeError] of a value that cannot
    be iterated. *)
Definition tuple (v : pyval) : option pyval := option_map VTuple (iter v).

(** *** The builtin [hash]

    CPython on a 64-bit build, version 3.8 and later: an integer hashes to
    itself modulo the Mersenne prime 2^61 - 1 (and -1 to -2), a tuple
    combines the hashes of its items in order (the xxHash-style loop of
    [Objects/tupleobject.c]), a list is unhashable.  The hash of [None], of
    a string (randomised per process) and of an object (derived from its
    address) are left to the process: [process_hash] collects them. *)
Record process_hash : Type := {
  hash_None : Z;
  hash_str : string -> Z;
  hash_obj : positive -> Z
}.

Definition two64 : Z := 2 ^ 64.
Definition XXPRIME_1 : Z := 11400714785074694791.
Definition XXPRIME_2 : Z := 14029467366897019727.
Definition XXPRIME_5 : Z := 2870177450012600261.

Definition xxrotate (x : Z) : Z :=
  Z.lor (Z.shiftl x 31 mod two64) (Z.shiftr x 33).

Definition to_signed (u : Z) : Z :=
  if u <? 2 ^ 63 then u else u - two64.

Definition tuplehash (lanes : list Z) : Z :=
  let step (acc lane : Z) : Z :=
    let acc := (acc + (lane mod two64) * XXPRIME_2) mod two64 in
    let acc := xxrotate acc in
    (acc * XXPRIME_1) mod two64 in
  let acc := fold_left step lanes XXPRIME_5 in
  let acc := (acc + Z.lxor (Z.of_nat (List.length lanes))
                           (Z.lxor XXPRIME_5 3527539)) mod two64 in
  if acc =? two64 - 1 then 1546275796 else to_signed acc.

Definition int_hash (z : Z) : Z :=
  let h := Z.sgn z * (Z.abs z mod (2 ^ 61 - 1)) in
  if h =? -1 then -2 else h.

(** [mapM] over [option]: the first unhashable item makes the whole tuple
    unhashable. *)
Fixpoint sequence (os : list (option Z)) : option (list Z) :=
  match os with
  | [] => Some []
  | o :: os' =>
      match o, sequence os' with
      | Some x, Some xs => Some (x :: xs)
      | _, _ => None
      end
  end.

(** [hash(v)]; [None] is [TypeError: unhashable type]. *)
Fixpoint hash (ph : process_hash) (v : pyval) : option Z :=
  match v with
  | VNone => Some (hash_None ph)
  | VInt z => Some (int_hash z)
  | VStr s => Some (hash_str ph s)
  | VObj id => Some (hash_obj ph id)
  | VTuple xs => option_map tuplehash (sequence (map (hash ph) xs))
  | VList _ => None
  end.

(** *** Dictionaries

    A [dict] is its items in insertion order; a key occurs once.  Lookup
    compares keys with [==]. *)
Definition pydict : Type := list (pyval * pyval).

Definition dict_get (d : pydict) (k : pyval) : option pyval :=
  option_map snd (find (fun kv => pyval_eqb (fst kv) k) d).

(** [d[k] = v]: an existing key keeps its place, a new one goes last. *)
Fixpoint dict_set (d : pydict) (k v : pyval) : pydict :=
  match d with
  | [] => [(k, v)]
  | (k', v') :: d' =>
      if pyval_eqb k' k then (k', v) :: d' else (k', v') :: dict_set d' k v
  end.

(** [dict.__eq__]: the same number of items, and every key of the one maps
    to an equal value in the other. *)
Definition dict_eqb (a b : pydict) : bool :=
  (List.length a =? List.length b)%nat &&
  forallb (fun kv => match dict_get b (fst kv) with
                     | Some v' => pyval_eqb (snd kv) v'
                     | None => false
                     end) a.

(** No two items of the list have equal keys: the list is a dictionary. *)
Fixpoint unique_keys (d : pydict) : bool :=
  match d with
  | [] => true
  | (k, _) :: d' =>
      forallb (fun kv => negb (pyval_eqb k (fst kv))) d' && unique_keys d'
  end.

End Py.


Import Py.

(** Exceptions the module raises or lets through.  [TimeoutError] carries
    the three numbers its message is formatted from,
    ["QueuePool limit of size %d overflow %d reached, connection timed
    out, timeout %d" % (self.size(), self.overflow(), self._timeout)];
    [DatabaseError] is whatever the wrapped [Database.connect] raised. *)
Inductive exn : Type :=
| TypeError
| ValueError
| TimeoutError (size overflow timeout : Z)
| DatabaseError (msg : string).

(** ** [isiterable] and [HashableDict] *)

(** [isiterable(value)]: [iter(value)] returned instead of raising
    [TypeError]. *)
Definition isiterable (value : pyval) : bool :=
  match iter value with
  | Some _ => true
  | None => false
  end.

Module HashableDict.

(** [(n, tuple(v)) for n, v in self.items() if isiterable(v)]: the items in
    the dictionary's own order, those with an iterable value only. *)
Definition items (self : pydict) : list pyval :=
  omap (fun nv : pyval * pyval =>
          let (n, v) := nv in
          if isiterable v then (fun t => VTuple [n; t]) <$> tuple v else None)
       self.

(** [HashableDict.__hash__]: [hash(tuple(items))]. *)
Definition __hash__ (ph : process_hash) (self : pydict) : option Z :=
  hash ph (VTuple (items self)).

(** [HashableDict.__eq__] is [dict.__eq__]: the class does not override it. *)
Definition __eq__ (self other : pydict) : bool := dict_eqb self other.

(** [dict(seq)] for a sequence of pairs, the other way [HashableDict(...)]
    can be built: every element must iterate to exactly two values (else
    [TypeError] or [ValueError]), and the first must be hashable. *)
Fixpoint hashable (v : pyval) : bool :=
  match v with
  | VList _ => false
  | VTuple xs => forallb hashable xs
  | VNone | VInt _ | VStr _ | VObj _ => true
  end.

Fixpoint update_from_pairs (d : pydict) (seq : list pyval) : exn + pydict :=
  match seq with
  | [] => inr d
  | x :: seq' =>
      match iter x with
      | None => inl TypeError
      | Some [k; v] =>
          if hashable k then update_from_pairs (dict_set d k v) seq'
          else inl TypeError
      | Some _ => inl ValueError
      end
  end.

End HashableDict.

(** ** Keyword arguments of [connect] *)

(** A keyword argument is a plain value, a [dict] (how callers hand over
    [conv] and [ssl]) or a [HashableDict]. *)
Inductive argval : Type :=
| AVal (v : pyval)
| ADict (d : pydict)
| AHashableDict (d : pydict).

(** Truth value of [kwargs.pop(name, None)]: an absent argument pops as
    [None]. *)
Definition arg_truthy (a : option argval) : bool :=
  match a with
  | None => false
  | Some (AVal v) => truthy v
  | Some (ADict d) | Some (AHashableDict d) =>
      match d with [] => false | _ => true end
  end.

(** [HashableDict(x)], the [dict] constructor: a copy of a mapping, the
    pairs of a sequence, [TypeError] for what cannot be iterated. *)
Definition HashableDict_new (x : argval) : exn + argval :=
  match x with
  | ADict d | AHashableDict d => inr (AHashableDict d)
  | AVal v =>
      match iter v with
      | None => inl TypeError
      | Some seq =>
          match HashableDict.update_from_pairs [] seq with
          | inl e => inl e
          | inr d => inr (AHashableDict d)
          end
      end
  end.

(** What a call ends with: a returned value or a raised exception. *)
Inductive result (A : Type) : Type :=
| Return (a : A)
| Raise (e : exn).
Arguments Return {A} a.
Arguments Raise {A} e.

(** ** [QueuePool._do_get] *)

Module QueuePool.
Local Open Scope Z_scope.

(** A connection record, by identity. *)
Definition conn : Type := positive.

(** The attributes of a [QueuePool] that [_do_get] reads and writes:
    [_pool] is the queue of idle connections (oldest first) and [maxsize]
    its bound, which is what [size()] returns; [_overflow] starts at
    [-pool_size] and counts connections beyond the pool size;
    [_timeout] is the number of seconds the pool was built with, of
    either sign. *)
Record state : Type := {
  maxsize : Z;
  _pool : list conn;
  _overflow : Z;
  _max_overflow : Z;
  _timeout : Z
}.

Definition set_pool (q : list conn) (s : state) : state :=
  {| maxsize := maxsize s; _pool := q; _overflow := _overflow s;
     _max_overflow := _max_overflow s; _timeout := _timeout s |}.

Definition set_overflow (n : Z) (s : state) : state :=
  {| maxsize := maxsize s; _pool := _pool s; _overflow := n;
     _max_overflow := _max_overflow s; _timeout := _timeout s |}.

(** SQLAlchemy's [_inc_overflow] on the attributes: without a limit
    ([_max_overflow == -1]) it always counts one up; with one it does so,
    under the overflow lock, only below the limit. *)
Definition try_inc (s : state) : bool * state :=
  if _max_overflow s =? -1 then (true, set_overflow (_overflow s + 1) s)
  else if _overflow s <? _max_overflow s
       then (true, set_overflow (_overflow s + 1) s)
       else (false, s).

(** The pool is shared between threads.  What the other threads do to it
    while this one runs is one of the pool's own primitive steps: reserve
    an overflow slot, give one back, return a connection to the queue
    (dropped when the queue is full; a bound of 0 or less is no bound),
    take the oldest idle connection. *)
Inductive env_event : Type :=
| other_inc
| other_dec
| other_put (c : conn)
| other_get.

Definition full (s : state) : bool :=
  (0 <? maxsize s) && (maxsize s <=? Z.of_nat (List.length (_pool s))).

Definition env_step (s : state) (e : env_event) : state :=
  match e with
  | other_inc => snd (try_inc s)
  | other_dec => set_overflow (_overflow s - 1) s
  | other_put c => if full s then s else set_pool (_pool s ++ [c]) s
  | other_get => set_pool (tl (_pool s)) s
  end.

Definition env_run (es : list env_event) (s : state) : state :=
  fold_left env_step es s.

(** What this thread asks of the queue, the counters, the factory and the
    logger, in the order it does. *)
Inductive call : Type :=
| Queue_get (block : bool) (timeout : Z) (got : option conn)
| Queue_get_raises (block : bool) (timeout : Z) (e : exn)
| inc_overflow (ok : bool)
| dec_overflow
| create_connection (r : conn + string)
| logger_warning (size overflow max_overflow : Z)
| logger_error (timeout : Z).

(** One run of [_do_get] in its surroundings: the pool, the bursts of
    steps the other threads take before each access of this thread to the
    shared attributes ([others], finite: once it is used up this thread is
    alone), the outcome of each call of the connection factory, and the
    calls made so far. *)
Record world : Type := {
  self : state;
  others : list (list env_event);
  creator : nat -> conn + string;
  created : nat;
  calls : list call
}.

Definition set_self (s : state) (w : world) : world :=
  {| self := s; others := others w; creator := creator w;
     created := created w; calls := calls w |}.

Definition record (c : call) (w : world) : world :=
  {| self := self w; others := others w; creator := creator w;
     created := created w; calls := calls w ++ [c] |}.

(** The other threads take their next burst of steps. *)
Definition yield (w : world) : world :=
  match others w with
  | [] => w
  | es :: rest =>
      {| self := env_run es (self w); others := rest; creator := creator w;
         created := created w; calls := calls w |}
  end.

(** A computation of this thread: it reads and changes the world. *)
Definition M (A : Type) : Type := world -> A * world.

Definition ret {A : Type} (a : A) : M A := fun w => (a, w).

Definition bind {A B : Type} (m : M A) (k : A -> M B) : M B :=
  fun w => let (a, w') := m w in k a w'.

Notation "x <- m ;; k" := (bind m (fun x => k))
  (at level 100, m at next level, right associativity).
Notation "m ;;; k" := (bind m (fun _ => k))
  (at level 100, right associativity).

(** [self._overflow], also read through [self.overflow()]. *)
Definition overflow : M Z :=
  fun w => let w := yield w in (_overflow (self w), w).

(** [self.size()], [self._max_overflow], [self._timeout]: fixed when the
    pool is built. *)
Definition size : M Z := fun w => (maxsize (self w), w).
Definition max_overflow : M Z := fun w => (_max_overflow (self w), w).
Definition timeout : M Z := fun w => (_timeout (self w), w).

Definition pop_idle (w : world) : option conn * world :=
  match _pool (self w) with
  | [] => (None, w)
  | c :: q => (Some c, set_self (set_pool q (self w)) w)
  end.

(** [self._pool.get(block, timeout)], SQLAlchemy's [Queue.get]: the
    oldest idle connection.  A blocking call with a negative timeout
    raises [ValueError] before it looks at the queue.  On an empty queue a
    blocking call waits for the timeout and takes what the other threads
    have left in the queue by then.  [Return None] is [sqla_queue.Empty],
    the one exception [_do_get] catches. *)
Definition _pool_get (block : bool) (tmo : Z) : M (result (option conn)) :=
  fun w =>
    let w := yield w in
    if block && (tmo <? 0) then
      (Raise ValueError, record (Queue_get_raises block tmo ValueError) w)
    else
      let (got, w) := pop_idle w in
      let (got, w) :=
        match got with
        | Some c => (Some c, w)
        | None => if block then pop_idle (yield w) else (None, w)
        end in
      (Return got, record (Queue_get block tmo got) w).

(** [self._inc_overflow()]. *)
Definition _inc_overflow : M bool :=
  fun w =>
    let w := yield w in
    let (ok, s) := try_inc (self w) in
    (ok, record (inc_overflow ok) (set_self s w)).

(** [self._dec_overflow()]. *)
Definition _dec_overflow : M unit :=
  fun w =>
    let w := yield w in
    (tt, record dec_overflow
           (set_self (set_overflow (_overflow (self w) - 1) (self w)) w)).

(** [self._create_connection()]: the factory is called once more. *)
Definition _create_connection : M (conn + string) :=
  fun w =>
    let w := yield w in
    let r := creator w (created w) in
    (r, record (create_connection r)
          {| self := self w; others := others w; creator := creator w;
             created := S (created w); calls := calls w |}).

(** The ["Database connection pool full. size: {}, overflow: {} of {}"]
    warning, formatted from [self.size()], [self.overflow()] and
    [self._max_overflow]. *)
Definition warn_pool_full : M unit :=
  sz <- size ;; ov <- overflow ;; mx <- max_overflow ;;
  fun w => (tt, record (logger_warning sz ov mx) w).

(** The ["Unable to establish database connection. Timeout {}"] error. *)
Definition log_timeout : M unit :=
  tmo <- timeout ;; fun w => (tt, record (logger_error tmo) w).

(** The body of [QueuePool._do_get], with the method itself as the
    parameter [_do_get] that the two [return self._do_get()] call. *)
Definition _do_get_body (_do_get : M (option (result conn)))
  : M (option (result conn)) :=
  mx <- max_overflow ;;
  let use_overflow := -1 <? mx in
  wait <- (if use_overflow
           then ov <- overflow ;; ret (mx <=? ov)
           else ret false) ;;
  tmo <- timeout ;;
  got <- _pool_get wait tmo ;;
  match got with
  | Raise e =>
      (* not [sqla_queue.Empty]: the [except] clause lets it through *)
      ret (Some (Raise e))
  | Return (Some c) => ret (Some (Return c))
  | Return None =>
      exhausted <- (if use_overflow
                    then ov <- overflow ;; ret (mx <=? ov)
                    else ret false) ;;
      if exhausted : bool then
        warn_pool_full ;;;
        if negb wait then _do_get
        else
          log_timeout ;;;
          sz <- size ;; ov <- overflow ;; tmo <- timeout ;;
          ret (Some (Raise (TimeoutError sz ov tmo)))
      else
        ok <- _inc_overflow ;;
        if ok : bool then
          ov <- overflow ;;
          (if 0 <=? ov then warn_pool_full else ret tt) ;;;
          r <- _create_connection ;;
          match r with
          | inl c => ret (Some (Return c))
          | inr msg =>
              (* with util.safe_reraise(): self._dec_overflow() *)
              _dec_overflow ;;;
              ret (Some (Raise (DatabaseError msg)))
          end
        else _do_get
  end.

(** [QueuePool._do_get]: [fuel] bounds the depth of the recursion, and
    [None] is a run that needs more. *)
Fixpoint _do_get (fuel : nat) : M (option (result conn)) :=
  match fuel with
  | O => ret None
  | S fuel' => _do_get_body (_do_get fuel')
  end.

(** *** Measures

    How often the other threads still reserve an overflow slot, and the
    overflow slots this thread holds after the calls [cs] (reserved and
    not given back). *)
Definition is_inc (e : env_event) : bool :=
  match e with
  | other_inc => true
  | _ => false
  end.

Definition count_inc (es : list env_event) : nat :=
  List.length (List.filter is_inc es).

Definition increments_ahead (w : world) : nat :=
  count_inc (concat (others w)).

Fixpoint reservations (cs : list call) : Z :=
  match cs with
  | [] => 0
  | inc_overflow true :: cs' => reservations cs' + 1
  | dec_overflow :: cs' => reservations cs' - 1
  | _ :: cs' => reservations cs'
  end.

(** One activation of [_do_get]: its body, [None] where it would call
    itself. *)
Definition attempt : M (option (result conn)) := _do_get_body (ret None).

(** The parts of an activation: the test
    [use_overflow and self._overflow >= self._max_overflow], and the
    second half, where an overflow slot is reserved and the factory
    called. *)
Definition exhausted : M bool :=
  mx <- max_overflow ;;
  if -1 <? mx then ov <- overflow ;; ret (mx <=? ov) else ret false.

Definition reserve : M (option (result conn)) :=
  ok <- _inc_overflow ;;
  if ok : bool then
    ov <- overflow ;;
    (if 0 <=? ov then warn_pool_full else ret tt) ;;;
    r <- _create_connection ;;
    match r with
    | inl c => ret (Some (Return c))
    | inr msg => _dec_overflow ;;; ret (Some (Raise (DatabaseError msg)))
    end
  else ret None.

(** What every step of this thread and of the others leaves as it is or
    lets only shrink. *)
Definition frame (w w' : world) : Prop :=
  maxsize (self w') = maxsize (self w) /\
  _max_overflow (self w') = _max_overflow (self w) /\
  _timeout (self w') = _timeout (self w) /\
  creator w' = creator w /\
  (others w = [] -> others w' = []) /\
  (increments_ahead w' <= increments_ahead w)%nat.

Definition potential (w : world) : Z :=
  _overflow (self w) + Z.of_nat (increments_ahead w).

End QueuePool.

(** ** The manager: [get_pool] and [connect] *)

Module Registry.
Local Open Scope Z_scope.

(** A value of the pool settings ([MYSQLPOOL_ARGUMENTS]). *)
Inductive cfgval : Type :=
| CNone
| CBool (b : bool)
| CInt (z : Z)
| CStr (s : string)
| CClass (name : string).

(** The module's own [QueuePool] class (the value of [backend]), and
    SQLAlchemy's, the default of [_DBProxy.__init__]. *)
Definition QueuePool_class : cfgval :=
  CClass "django_mysqlpool.backends.mysqlpool.base.QueuePool".
Definition sqlalchemy_QueuePool : cfgval := CClass "sqlalchemy.pool.QueuePool".

Definition DEFAULT_POOL_TIMEOUT : Z := 119.

(** [d.setdefault(k, v)]. *)
Definition setdefault {V : Type} (k : string) (v : V) (d : gmap string V)
  : gmap string V :=
  match d !! k with
  | Some _ => d
  | None => <[k := v]> d
  end.

(** *** The key of a parameter group

    SQLAlchemy's [_DBProxy._serialize(kw)]: the value of the argument
    [sa_pool_key] alone when the call gives one, and else
    [tuple((k, kw[k]) for k in sorted(kw))], the arguments as pairs in
    the order of their names. *)
Inductive key : Type :=
| KGiven (a : argval)
| KPairs (items : list (string * argval)).

Fixpoint insert_by_name (x : string * argval) (l : list (string * argval))
  : list (string * argval) :=
  match l with
  | [] => [x]
  | y :: l' =>
      if String.leb (fst x) (fst y) then x :: l
      else y :: insert_by_name x l'
  end.

Definition sorted_items (kw : gmap string argval) : list (string * argval) :=
  foldr insert_by_name [] (map_to_list kw).

Definition _serialize (kw : gmap string argval) : key :=
  match kw !! "sa_pool_key"%string with
  | Some a => KGiven a
  | None => KPairs (sorted_items kw)
  end.

(** [hash] and [==] of an argument: a plain [dict] is unhashable, a
    [HashableDict] hashes by its [__hash__], and both compare as
    dictionaries. *)
Definition arg_hash (ph : process_hash) (a : argval) : option Z :=
  match a with
  | AVal v => hash ph v
  | ADict _ => None
  | AHashableDict d => HashableDict.__hash__ ph d
  end.

Definition arg_eqb (a b : argval) : bool :=
  match a, b with
  | AVal x, AVal y => pyval_eqb x y
  | (ADict x | AHashableDict x), (ADict y | AHashableDict y) =>
      HashableDict.__eq__ x y
  | _, _ => false
  end.

(** [hash(key)]: of a given key its own hash, of the pairs the tuple
    hash of the hashes of the pairs. *)
Definition pairs_hash (ph : process_hash) (l : list (string * argval))
  : option Z :=
  option_map tuplehash
    (sequence
       (map (fun kv : string * argval =>
               option_map (fun h => tuplehash [hash_str ph (fst kv); h])
                          (arg_hash ph (snd kv)))
            l)).

Definition key_hash (ph : process_hash) (k : key) : option Z :=
  match k with
  | KGiven a => arg_hash ph a
  | KPairs l => pairs_hash ph l
  end.

(** [==] of two keys.  Two tuples of pairs are equal when they are pair
    by pair; two given keys as the arguments they are; and a tuple of
    pairs equals a given key when that is a tuple of as many 2-tuples,
    with the same names and equal values in turn. *)
Fixpoint pairs_eqb (a b : list (string * argval)) : bool :=
  match a, b with
  | [], [] => true
  | (n, x) :: a', (m, y) :: b' =>
      String.eqb n m && arg_eqb x y && pairs_eqb a' b'
  | _, _ => false
  end.

Definition pair_eq_value (na : string * argval) (x : pyval) : bool :=
  match x, snd na with
  | VTuple [VStr m; v], AVal v' => String.eqb (fst na) m && pyval_eqb v' v
  | _, _ => false
  end.

Fixpoint pairs_eq_values (l : list (string * argval)) (xs : list pyval) : bool :=
  match l, xs with
  | [], [] => true
  | na :: l', x :: xs' => pair_eq_value na x && pairs_eq_values l' xs'
  | _, _ => false
  end.

Definition pairs_eq_given (l : list (string * argval)) (a : argval) : bool :=
  match a with
  | AVal (VTuple xs) => pairs_eq_values l xs
  | _ => false
  end.

Definition key_eqb (a b : key) : bool :=
  match a, b with
  | KGiven x, KGiven y => arg_eqb x y
  | KPairs l, KPairs l' => pairs_eqb l l'
  | KPairs l, KGiven y | KGiven y, KPairs l => pairs_eq_given l y
  end.

(** *** Pools and their manager *)

(** A pool as [_DBProxy.get_pool] builds it,
    [self.poolclass(lambda: self.module.connect(kw), **self.kw)]: an
    object of its own ([pool_id]), of class [pool_class], built with the
    keyword arguments [pool_kw], whose creator connects with
    [creator_kw]: the arguments of the call less [sa_pool_key].  What
    the class makes of [pool_kw] is the class's own matter; a
    constructor that refuses an option raises out of [connect], and
    what is proved of a returned pool is proved of the calls that
    return one. *)
Record Pool : Type := {
  pool_id : positive;
  pool_class : cfgval;
  pool_kw : gmap string cfgval;
  creator_kw : gmap string argval
}.

(** The [_DBProxy] that [pool.manage(OldDatabase, **kwargs)] returns:
    [poolclass] and [kw] from its constructor, [pools] the dictionary
    from key to pool (items in insertion order), [_pid] the attribute
    [get_pool] sets.  [registered] says whether SQLAlchemy's module-level
    table [pool.proxies] still holds this object under [OldDatabase]:
    [OldDatabase] is private to the module, so no other manager is ever
    filed under it. *)
Record DBProxy : Type := {
  poolclass : cfgval;
  kw : gmap string cfgval;
  pools : list (key * Pool);
  _pid : option Z;
  registered : bool
}.

(** [self.pools[key]] for a key whose hash is [h]: the first item with
    the same hash and an equal key. *)
Definition pools_find (ph : process_hash) (k : key) (h : Z)
    (ps : list (key * Pool)) : option Pool :=
  option_map snd
    (find (fun kp : key * Pool =>
             match key_hash ph (fst kp) with
             | Some h' => (h' =? h) && key_eqb (fst kp) k
             | None => false
             end) ps).

(** [_DBProxy.get_pool(kw)]: the pool filed under the key of [kw], a new
    one filed under it when there is none; before the new pool is built,
    [kw.pop('sa_pool_key', None)] takes that argument out of what its
    creator connects with.  [TypeError] when the key cannot be hashed.
    Returns the manager as the call leaves it and the next free object
    identity. *)
Definition DBProxy_get_pool (ph : process_hash) (kwargs : gmap string argval)
    (m : DBProxy) (fresh : positive) : result Pool * DBProxy * positive :=
  let k := _serialize kwargs in
  match key_hash ph k with
  | None => (Raise TypeError, m, fresh)
  | Some h =>
      match pools_find ph k h (pools m) with
      | Some pl => (Return pl, m, fresh)
      | None =>
          let pl := {| pool_id := fresh; pool_class := poolclass m;
                       pool_kw := kw m;
                       creator_kw := delete "sa_pool_key"%string kwargs |} in
          (Return pl,
           {| poolclass := poolclass m; kw := kw m;
              pools := pools m ++ [(k, pl)]; _pid := _pid m;
              registered := registered m |},
           Pos.succ fresh)
      end
  end.

(** [_DBProxy.close()]: every pool is dropped from [pools]. *)
Definition DBProxy_close (m : DBProxy) : DBProxy :=
  {| poolclass := poolclass m; kw := kw m; pools := []; _pid := _pid m;
     registered := registered m |}.

(** *** The process *)

(** The state of one process as far as the module sees it: [os.getpid()],
    [settings.MYSQLPOOL_ARGUMENTS] when the settings define it, the global
    [MYSQLPOOL] ([None] until the first [get_pool]), the next free object
    identity and the hashes of the running interpreter. *)
Record process : Type := {
  getpid : Z;
  MYSQLPOOL_ARGUMENTS : option (gmap string cfgval);
  MYSQLPOOL : option DBProxy;
  next_id : positive;
  hashing : process_hash
}.

(** [os.fork()] as the child sees it: the parent's memory under a new
    process identifier. *)
Definition fork (child : Z) (p : process) : process :=
  {| getpid := child; MYSQLPOOL_ARGUMENTS := MYSQLPOOL_ARGUMENTS p;
     MYSQLPOOL := MYSQLPOOL p; next_id := next_id p; hashing := hashing p |}.

(** [pool.manage(OldDatabase, **params)] when [proxies] has no manager for
    [OldDatabase] yet: [_DBProxy(module, poolclass=QueuePool, **kw)],
    filed in [proxies]. *)
Definition manage (params : gmap string cfgval) : DBProxy :=
  {| poolclass := default sqlalchemy_QueuePool (params !! "poolclass"%string);
     kw := delete "poolclass"%string params;
     pools := [];
     _pid := None;
     registered := true |}.

(** [pool.clear_managers()]: [close()] on every manager in [proxies],
    then [proxies.clear()].  A manager that is no longer in [proxies] is
    not reached. *)
Definition clear_managers (m : DBProxy) : DBProxy :=
  if registered m then
    {| poolclass := poolclass m; kw := kw m; pools := pools (DBProxy_close m);
       _pid := _pid m; registered := false |}
  else m.

(** [get_pool()]: returns [MYSQLPOOL] and the process as the call leaves
    it.  The settings dictionary, when there is one, is the very object
    the defaults are written into. *)
Definition get_pool (p : process) : DBProxy * process :=
  let (m, args) :=
    match MYSQLPOOL p with
    | Some m => (m, MYSQLPOOL_ARGUMENTS p)
    | None =>
        let backend := QueuePool_class in
        let kwargs := default ∅ (MYSQLPOOL_ARGUMENTS p) in
        let kwargs := setdefault "poolclass" backend kwargs in
        let kwargs := setdefault "recycle" (CInt DEFAULT_POOL_TIMEOUT) kwargs in
        let kwargs := <["echo"%string := CBool false]> kwargs in
        let m := manage kwargs in
        ({| poolclass := poolclass m; kw := kw m; pools := pools m;
            _pid := Some (getpid p); registered := registered m |},
         (fun _ => kwargs) <$> MYSQLPOOL_ARGUMENTS p)
    end in
  let m :=
    if bool_decide (_pid m = Some (getpid p)) then m else clear_managers m in
  (m, {| getpid := getpid p; MYSQLPOOL_ARGUMENTS := args;
         MYSQLPOOL := Some m; next_id := next_id p; hashing := hashing p |}).

(** Lines 151 to 157 of [connect]: the keyword arguments as they are when
    the pool is asked. *)
Definition connect_kwargs (kwargs : gmap string argval)
  : exn + gmap string argval :=
  let conv := kwargs !! "conv"%string in
  let kwargs := delete "conv"%string kwargs in
  let ssl := kwargs !! "ssl"%string in
  let kwargs := delete "ssl"%string kwargs in
  let wrap (name : string) (x : option argval) (kwargs : gmap string argval)
    : exn + gmap string argval :=
    match x with
    | Some a =>
        if arg_truthy x then
          match HashableDict_new a with
          | inl e => inl e
          | inr hd => inr (<[name := hd]> kwargs)
          end
        else inr kwargs
    | None => inr kwargs
    end in
  match wrap "conv"%string conv kwargs with
  | inl e => inl e
  | inr kwargs => wrap "ssl"%string ssl kwargs
  end.

(** [connect(kwargs)] up to the pool [get_pool().connect(kwargs)]
    picks: the connection itself is then acquired from that pool. *)
Definition connect (kwargs : gmap string argval) (p : process)
  : result Pool * process :=
  match connect_kwargs kwargs with
  | inl e => (Raise e, p)
  | inr kwargs =>
      let (m, p) := get_pool p in
      let '(r, m, fresh) :=
        DBProxy_get_pool (hashing p) kwargs m (next_id p) in
      (r, {| getpid := getpid p; MYSQLPOOL_ARGUMENTS := MYSQLPOOL_ARGUMENTS p;
             MYSQLPOOL := Some m; next_id := fresh; hashing := hashing p |})
  end.

(** One call after the other in the same process. *)
Fixpoint connects (calls : list (gmap string argval)) (p : process) : process :=
  match calls with
  | [] => p
  | kwargs :: rest => connects rest (snd (connect kwargs p))
  end.

(** Every dictionary among the arguments is a dictionary: no key twice. *)
Definition arg_wf (a : argval) : bool :=
  match a with
  | AVal _ => true
  | ADict d | AHashableDict d => unique_keys d
  end.

Definition kwargs_wf (kwargs : gmap string argval) : bool :=
  forallb (fun na : string * argval => arg_wf (snd na)) (map_to_list kwargs).

(** A process that has not called [get_pool] yet. *)
Definition start (pid : Z) (args : option (gmap string cfgval))
    (ph : process_hash) : process :=
  {| getpid := pid; MYSQLPOOL_ARGUMENTS := args; MYSQLPOOL := None;
     next_id := 1%positive; hashing := ph |}.

End Registry.

(** ** Sample data *)

Module Sample.
Import Registry.
Local Open Scope Z_scope.

(** The hashes of one interpreter run, for the examples: strings by
    64-bit FNV-1a, an object by its identity. *)
Definition fnv1a (s : string) : Z :=
  fold_left
    (fun h c => (Z.lxor h (Z.of_N (N_of_ascii c)) * 1099511628211) mod two64)
    (list_ascii_of_string s) 14695981039346656037.

Definition hashes : process_hash :=
  {| hash_None := 4238894112;
     hash_str := fun s => to_signed (fnv1a s);
     hash_obj := fun id => Z.pos id |}.

(** Two [conv] mappings with the same items, written in the two orders. *)
Definition conv12 : pydict :=
  [(VInt 1, VList [VInt 2]); (VInt 3, VList [VInt 4])].
Definition conv21 : pydict :=
  [(VInt 3, VList [VInt 4]); (VInt 1, VList [VInt 2])].

Definition params (conv : pydict) : gmap string argval :=
  <["host"%string := AVal (VStr "db")]>
    (<["port"%string := AVal (VInt 3306)]>
       (<["conv"%string := ADict conv]> ∅)).

(** The pool a call returned, if it returned one. *)
Definition returned {A : Type} (r : result A) : option A :=
  match r with
  | Return a => Some a
  | Raise _ => None
  end.

(** The setting a returned pool was built with. *)
Definition setting (name : string) (r : result Pool) : option cfgval :=
  match r with
  | Return pl => pool_kw pl !! name
  | Raise _ => None
  end.

(** The pool with identity [id] that a process without
    [MYSQLPOOL_ARGUMENTS] builds for [params conv12]. *)
Definition pool12 (id : positive) : Pool :=
  {| pool_id := id;
     pool_class := QueuePool_class;
     pool_kw := <["echo"%string := CBool false]>
                  (<["recycle"%string := CInt 119]> ∅);
     creator_kw := <["host"%string := AVal (VStr "db")]>
                     (<["port"%string := AVal (VInt 3306)]>
                        (<["conv"%string := AHashableDict conv12]> ∅)) |}.

(** Arguments that name their pool: [sa_pool_key] next to the host. *)
Definition keyed (host : string) : gmap string argval :=
  <["host"%string := AVal (VStr host)]>
    (<["sa_pool_key"%string := AVal (VStr "reports")]> ∅).

(** The pool with identity [id] that a process without
    [MYSQLPOOL_ARGUMENTS] builds for [keyed host]. *)
Definition keyed_pool (id : positive) (host : string) : Pool :=
  {| pool_id := id;
     pool_class := QueuePool_class;
     pool_kw := <["echo"%string := CBool false]>
                  (<["recycle"%string := CInt 119]> ∅);
     creator_kw := <["host"%string := AVal (VStr host)]> ∅ |}.

(** Settings that ask for [echo] and a pool size. *)
Definition echo_on : gmap string cfgval :=
  <["echo"%string := CBool true]> (<["pool_size"%string := CInt 5]> ∅).

(** A pool of size 2 whose three overflow slots are all taken, and one
    with a slot left; no idle connection in either. *)
Definition saturated : QueuePool.state :=
  {| QueuePool.maxsize := 2; QueuePool._pool := [];
     QueuePool._overflow := 3; QueuePool._max_overflow := 3;
     QueuePool._timeout := 1 |}.

Definition roomy : QueuePool.state :=
  {| QueuePool.maxsize := 2; QueuePool._pool := [];
     QueuePool._overflow := 2; QueuePool._max_overflow := 3;
     QueuePool._timeout := 1 |}.

(** A pool with four overflow slots, all taken when the thread arrives;
    while it waits and logs, another thread gives one slot back (its own
    connection attempt failed), just before the error is raised. *)
Definition raced : QueuePool.world :=
  {| QueuePool.self :=
       {| QueuePool.maxsize := 2; QueuePool._pool := [];
          QueuePool._overflow := 4; QueuePool._max_overflow := 4;
          QueuePool._timeout := 1 |};
     QueuePool.others := [[]; []; []; []; []; [QueuePool.other_dec]];
     QueuePool.creator := fun _ => inr "refused"%string;
     QueuePool.created := 0%nat;
     QueuePool.calls := [] |}.

(** A thread alone with the pool [s], whose factory always answers [r]. *)
Definition alone (s : QueuePool.state) (r : QueuePool.conn + string)
  : QueuePool.world :=
  {| QueuePool.self := s; QueuePool.others := [];
     QueuePool.creator := fun _ => r; QueuePool.created := 0%nat;
     QueuePool.calls := [] |}.

End Sample.

(** ** Invariants of the pool *)

Module Invariant.
Import QueuePool.
Local Open Scope Z_scope.

(** A pool with a limit on its overflow is within it. *)
Definition bounded (s : state) : Prop :=
  _max_overflow s <> -1 /\ _overflow s <= _max_overflow s.

(** With no other thread at work, the counter moves exactly by the
    slots this thread reserves and gives back. *)
Definition in_step (w w' : world) : Prop :=
  others w' = [] /\
  _overflow (self w') - reservations (calls w')
  = _overflow (self w) - reservations (calls w).

End Invariant.

(** Splits a goal into its conjuncts, not looking into definitions. *)
Ltac conjs := repeat match goal with |- _ /\ _ => split end.

(** * Properties *)

(** ** Python values and dictionaries *)

Section PyFacts.
Import Py.

(** Induction on a value that reaches into tuples and lists. *)
Lemma pyval_nested_ind (P : pyval -> Prop) :
  P VNone ->
  (forall z, P (VInt z)) ->
  (forall s, P (VStr s)) ->
  (forall id, P (VObj id)) ->
  (forall xs, Forall P xs -> P (VTuple xs)) ->
  (forall xs, Forall P xs -> P (VList xs)) ->
  forall v, P v.
Proof.
  intros HN HI HS HO HT HL.
  fix IH 1. intros [ | z | s | id | xs | xs ].
  - exact HN.
  - apply HI.
  - apply HS.
  - apply HO.
  - apply HT. induction xs as [ | x xs IHxs ]; constructor; [ apply IH | exact IHxs ].
  - apply HL. induction xs as [ | x xs IHxs ]; constructor; [ apply IH | exact IHxs ].
Qed.

Lemma pyval_eqb_refl (v : pyval) : pyval_eqb v v = true.
Proof.
  induction v as [ | z | s | id | xs IH | xs IH ] using pyval_nested_ind; simpl.
  - reflexivity.
  - apply Z.eqb_refl.
  - apply String.eqb_refl.
  - apply Pos.eqb_refl.
  - induction IH as [ | x xs Hx _ IHxs ]; [ reflexivity | ].
    rewrite Hx. exact IHxs.
  - induction IH as [ | x xs Hx _ IHxs ]; [ reflexivity | ].
    rewrite Hx. exact IHxs.
Qed.

(** In a dictionary every item is found under its own key. *)
Lemma dict_get_own (d : pydict) (k v : pyval) :
  unique_keys d = true -> In (k, v) d -> dict_get d k = Some v.
Proof.
  unfold dict_get.
  induction d as [ | [k0 v0] d IH ]; intros Hu Hin; [ destruct Hin | ].
  simpl in Hu. apply andb_prop in Hu as [Hk0 Hd].
  destruct Hin as [Heq | Hin].
  - inversion Heq; subst. simpl. rewrite pyval_eqb_refl. reflexivity.
  - simpl. rewrite forallb_forall in Hk0.
    specialize (Hk0 _ Hin). simpl in Hk0.
    apply negb_true_iff in Hk0. rewrite Hk0. apply IH; assumption.
Qed.

Lemma dict_eqb_refl (d : pydict) : unique_keys d = true -> dict_eqb d d = true.
Proof.
  intros Hu. unfold dict_eqb. rewrite Nat.eqb_refl. simpl.
  apply forallb_forall. intros [k v] Hin. simpl.
  rewrite (dict_get_own d k v Hu Hin). apply pyval_eqb_refl.
Qed.

(** [d[k] = v] keeps a dictionary a dictionary. *)
Lemma dict_set_keys_fresh (d : pydict) (k v k0 : pyval) :
  pyval_eqb k0 k = false ->
  forallb (fun kv => negb (pyval_eqb k0 (fst kv))) d = true ->
  forallb (fun kv => negb (pyval_eqb k0 (fst kv))) (dict_set d k v) = true.
Proof.
  intros Hk. induction d as [ | [k1 v1] d IH ]; simpl; intros H.
  - rewrite Hk. reflexivity.
  - apply andb_prop in H as [H1 H2].
    destruct (pyval_eqb k1 k); simpl; rewrite H1; simpl; auto.
Qed.

Lemma dict_set_unique (d : pydict) (k v : pyval) :
  unique_keys d = true -> unique_keys (dict_set d k v) = true.
Proof.
  induction d as [ | [k0 v0] d IH ]; simpl; intros Hu; [ reflexivity | ].
  apply andb_prop in Hu as [Hk0 Hd].
  destruct (pyval_eqb k0 k) eqn:E; simpl.
  - rewrite Hk0, Hd. reflexivity.
  - rewrite (dict_set_keys_fresh d k v k0 E Hk0), (IH Hd). reflexivity.
Qed.

End PyFacts.

(** ** [HashableDict] *)

Section HashableDictFacts.
Import Py.

(** What [__hash__] hashes for one item: the key and [tuple(value)]. *)
Lemma items_cons (n v : pyval) (d : pydict) :
  HashableDict.items ((n, v) :: d) =
  (if isiterable v then [VTuple [n; VTuple (default [] (iter v))]] else [])
    ++ HashableDict.items d.
Proof.
  unfold HashableDict.items at 1. simpl. unfold isiterable, tuple.
  destruct (iter v); reflexivity.
Qed.

Lemma items_app (d1 d2 : pydict) :
  HashableDict.items (d1 ++ d2) = HashableDict.items d1 ++ HashableDict.items d2.
Proof.
  induction d1 as [ | [n v] d1 IH ]; [ reflexivity | ].
  rewrite <- List.app_comm_cons, !items_cons, IH. apply List.app_assoc.
Qed.

Lemma items_filter (d : pydict) :
  HashableDict.items d =
  map (fun nv => VTuple [fst nv; VTuple (default [] (iter (snd nv)))])
      (List.filter (fun nv => isiterable (snd nv)) d).
Proof.
  induction d as [ | [n v] d IH ]; [ reflexivity | ].
  rewrite items_cons, IH. simpl. destruct (isiterable v); reflexivity.
Qed.

End HashableDictFacts.

(** C1, on the input where it fails.  [conv12] and [conv21] are equal
    dictionaries, [connect] wraps both, and the keys of the two calls
    compare equal; but [__hash__] walks the items in the order of each
    dictionary (its docstring promises a sorted tuple), so the two
    [HashableDict]s hash differently, and a process files the second call
    under a pool of its own. *)
Theorem value_equal_conv_hashes_differ :
  let kw12 := {[ "conv"%string := ADict Sample.conv12 ]} : gmap string argval in
  let kw21 := {[ "conv"%string := ADict Sample.conv21 ]} : gmap string argval in
  HashableDict.__eq__ Sample.conv12 Sample.conv21 = true /\
  HashableDict.__eq__ Sample.conv21 Sample.conv12 = true /\
  Registry.connect_kwargs kw12
    = inr {[ "conv"%string := AHashableDict Sample.conv12 ]} /\
  Registry.connect_kwargs kw21
    = inr {[ "conv"%string := AHashableDict Sample.conv21 ]} /\
  Registry.key_eqb
    (Registry._serialize {[ "conv"%string := AHashableDict Sample.conv12 ]})
    (Registry._serialize {[ "conv"%string := AHashableDict Sample.conv21 ]})
    = true /\
  (forall ph, HashableDict.__hash__ ph Sample.conv12 = Some 7343451594393902210%Z) /\
  (forall ph, HashableDict.__hash__ ph Sample.conv21 = Some 6224831312338467821%Z) /\
  let p0 := Registry.start 100 None Sample.hashes in
  let first := Registry.connect (Sample.params Sample.conv12) p0 in
  let second := Registry.connect (Sample.params Sample.conv21) (snd first) in
  Registry.pool_id <$> Sample.returned (fst first) = Some 1%positive /\
  Registry.pool_id <$> Sample.returned (fst second) = Some 2%positive.
Proof.
  repeat split; intros; vm_compute; reflexivity.
Qed.

(** C5, as stated, fails: a value that cannot be iterated (here a
    converter function, object 7) is not part of what is hashed.  The
    items handed to [hash] are empty, and exchanging the function for
    another one leaves the hash as it was, although the two dictionaries
    are not equal. *)
Lemma non_iterable_value_left_out_of_hash :
  isiterable (VObj 7) = false /\
  HashableDict.items [(VInt 10, VObj 7)] = [] /\
  (forall ph, HashableDict.__hash__ ph [(VInt 10, VObj 7)]
              = HashableDict.__hash__ ph [(VInt 10, VObj 8)]) /\
  HashableDict.__eq__ [(VInt 10, VObj 7)] [(VInt 10, VObj 8)] = false.
Proof.
  repeat split; intros; reflexivity.
Qed.

(** C5, amended.  [__hash__] hashes the tuple of the pairs
    [(key, tuple(value))] of the items whose value is iterable, in the
    order of the dictionary; an item whose value is not iterable takes no
    part in the hash, wherever it stands; and equality is [dict]'s, which
    looks every item up. *)
Theorem hash_covers_iterable_items_only (ph : process_hash) (d : pydict) :
  HashableDict.__hash__ ph d =
    hash ph (VTuple (map (fun nv => VTuple [fst nv; VTuple (default [] (iter (snd nv)))])
                         (List.filter (fun nv => isiterable (snd nv)) d))) /\
  (forall d1 d2 k v,
      d = d1 ++ (k, v) :: d2 -> isiterable v = false ->
      HashableDict.__hash__ ph d = HashableDict.__hash__ ph (d1 ++ d2)) /\
  (forall other k v,
      HashableDict.__eq__ d other = true -> In (k, v) d ->
      exists v', dict_get other k = Some v' /\ pyval_eqb v v' = true).
Proof.
  split; [ | split ].
  - unfold HashableDict.__hash__. rewrite items_filter. reflexivity.
  - intros d1 d2 k v -> Hv. unfold HashableDict.__hash__.
    rewrite !items_app, items_cons, Hv. reflexivity.
  - intros other k v Heq Hin. unfold HashableDict.__eq__, dict_eqb in Heq.
    apply andb_prop in Heq as [_ Hall]. rewrite forallb_forall in Hall.
    specialize (Hall _ Hin). simpl in Hall.
    destruct (dict_get other k) as [v' | ]; [ | discriminate ].
    exists v'. split; [ reflexivity | exact Hall ].
Qed.

Lemma hash_covers_iterable_items_only_witness :
  HashableDict.__hash__ Sample.hashes
    [(VInt 1, VList [VInt 2]); (VInt 10, VObj 7); (VStr "ca", VStr "x.pem")]
  = HashableDict.__hash__ Sample.hashes
    [(VInt 1, VList [VInt 2]); (VStr "ca", VStr "x.pem")].
Proof.
  apply (proj1 (proj2 (hash_covers_iterable_items_only Sample.hashes
                         [(VInt 1, VList [VInt 2]); (VInt 10, VObj 7);
                          (VStr "ca", VStr "x.pem")]))
           [(VInt 1, VList [VInt 2])] [(VStr "ca", VStr "x.pem")]
           (VInt 10) (VObj 7)); reflexivity.
Defined.

(** ** [QueuePool._do_get] *)

Section QueuePoolFacts.
Import QueuePool.
Local Open Scope Z_scope.

(** *** The other threads *)

Lemma env_step_config (s : state) (e : env_event) :
  maxsize (env_step s e) = maxsize s /\
  _max_overflow (env_step s e) = _max_overflow s /\
  _timeout (env_step s e) = _timeout s.
Proof.
  destruct e; unfold env_step, try_inc; simpl;
    repeat match goal with |- context [if ?b then _ else _] => destruct b end;
    simpl; auto.
Qed.

Lemma env_step_overflow (s : state) (e : env_event) :
  _overflow (env_step s e) <= _overflow s + (if is_inc e then 1 else 0).
Proof.
  destruct e; unfold env_step, try_inc; simpl;
    repeat match goal with |- context [if ?b then _ else _] => destruct b end;
    simpl; lia.
Qed.

Lemma env_run_config (es : list env_event) (s : state) :
  maxsize (env_run es s) = maxsize s /\
  _max_overflow (env_run es s) = _max_overflow s /\
  _timeout (env_run es s) = _timeout s.
Proof.
  unfold env_run. revert s.
  induction es as [ | e es IH ]; intros s; simpl; [ auto | ].
  destruct (IH (env_step s e)) as (H1 & H2 & H3).
  destruct (env_step_config s e) as (G1 & G2 & G3).
  repeat split; congruence.
Qed.

Lemma env_run_overflow (es : list env_event) (s : state) :
  _overflow (env_run es s) <= _overflow s + Z.of_nat (count_inc es).
Proof.
  unfold env_run, count_inc. revert s.
  induction es as [ | e es IH ]; intros s; simpl; [ lia | ].
  specialize (IH (env_step s e)).
  pose proof (env_step_overflow s e) as He.
  destruct (is_inc e); simpl List.length; lia.
Qed.

Lemma count_inc_app (es es' : list env_event) :
  count_inc (es ++ es') = (count_inc es + count_inc es')%nat.
Proof.
  unfold count_inc. rewrite List.filter_app, List.length_app. reflexivity.
Qed.

(** *** The frame *)

Lemma frame_refl (w : world) : frame w w.
Proof. unfold frame. repeat split; auto. Qed.

Lemma frame_trans (w1 w2 w3 : world) : frame w1 w2 -> frame w2 w3 -> frame w1 w3.
Proof.
  unfold frame. intros (A1 & A2 & A3 & A4 & A5 & A6) (B1 & B2 & B3 & B4 & B5 & B6).
  repeat split; try congruence; auto. lia.
Qed.

Lemma frame_record (c : call) (w : world) : frame w (record c w).
Proof. unfold frame, increments_ahead. simpl. repeat split; auto. Qed.

Lemma yield_alone (w : world) : others w = [] -> yield w = w.
Proof. unfold yield. intros ->. reflexivity. Qed.

Lemma yield_spec (w : world) :
  frame w (yield w) /\ potential (yield w) <= potential w /\
  created (yield w) = created w /\ calls (yield w) = calls w.
Proof.
  unfold yield, frame, potential, increments_ahead.
  destruct (others w) as [ | es rest ] eqn:E; simpl.
  - rewrite E. simpl. repeat split; auto; try discriminate; lia.
  - destruct (env_run_config es (self w)) as (H1 & H2 & H3).
    pose proof (env_run_overflow es (self w)) as Ho.
    rewrite count_inc_app.
    repeat split; auto; try discriminate; lia.
Qed.

(** *** What each call does *)

Lemma overflow_spec (w : world) (ov : Z) (w' : world) :
  overflow w = (ov, w') ->
  ov = _overflow (self w') /\ frame w w' /\ potential w' <= potential w /\
  created w' = created w /\ calls w' = calls w /\
  (others w = [] -> self w' = self w).
Proof.
  unfold overflow. intros [= <- <-].
  destruct (yield_spec w) as (F & P & C & L).
  conjs; auto. intros Ha. rewrite (yield_alone w Ha). reflexivity.
Qed.

Lemma pop_idle_spec (w : world) (got : option conn) (w' : world) :
  pop_idle w = (got, w') ->
  frame w w' /\ potential w' = potential w /\ created w' = created w /\
  calls w' = calls w /\ (got = None -> w' = w).
Proof.
  unfold pop_idle. destruct (_pool (self w)) as [ | c q ]; intros [= <- <-].
  - conjs; auto using frame_refl.
  - unfold frame, potential, increments_ahead. simpl.
    conjs; auto; discriminate.
Qed.

Lemma _pool_get_spec (block : bool) (tmo : Z) (w : world)
    (got : result (option conn)) (w' : world) :
  _pool_get block tmo w = (got, w') ->
  frame w w' /\ potential w' <= potential w /\ created w' = created w /\
  match got with
  | Return g =>
      (block = true -> 0 <= tmo) /\
      calls w' = calls w ++ [Queue_get block tmo g] /\
      (g = None -> others w = [] -> self w' = self w)
  | Raise e =>
      e = ValueError /\ block = true /\ tmo < 0 /\
      calls w' = calls w ++ [Queue_get_raises block tmo ValueError] /\
      (others w = [] -> self w' = self w)
  end.
Proof.
  unfold _pool_get.
  destruct (yield_spec w) as (F1 & P1 & C1 & L1).
  destruct (block && (tmo <? 0)) eqn:Eneg.
  { intros [= <- <-].
    apply andb_true_iff in Eneg as [-> Hneg]. apply Z.ltb_lt in Hneg.
    pose proof (frame_record (Queue_get_raises true tmo ValueError) (yield w)).
    unfold potential, increments_ahead in *. simpl.
    conjs; eauto using frame_trans; try congruence.
    intros Ha. rewrite (yield_alone w Ha). reflexivity. }
  assert (Htmo : block = true -> 0 <= tmo).
  { intros ->. simpl in Eneg. apply Z.ltb_ge in Eneg. exact Eneg. }
  clear Eneg.
  destruct (pop_idle (yield w)) as [g1 w1] eqn:E1.
  destruct (pop_idle_spec _ _ _ E1) as (F2 & P2 & C2 & L2 & N2).
  assert (Hcase : forall g2 w2,
             (g2 = g1 /\ w2 = w1) \/
             (g1 = None /\ pop_idle (yield w1) = (g2, w2)) ->
             frame w w2 /\ potential w2 <= potential w /\
             created w2 = created w /\ calls w2 = calls w /\
             (g2 = None -> others w = [] -> w2 = w)).
  { intros g2 w2 [[-> ->] | [-> E2]].
    - conjs; try congruence; try lia.
      + eapply frame_trans; eauto.
      + intros Hn Ha. rewrite (N2 Hn). apply yield_alone, Ha.
    - destruct (yield_spec w1) as (F3 & P3 & C3 & L3).
      destruct (pop_idle_spec _ _ _ E2) as (F4 & P4 & C4 & L4 & N4).
      conjs; try congruence; try lia.
      + eauto using frame_trans.
      + intros Hn Ha. rewrite (N4 Hn).
        rewrite (N2 eq_refl), (yield_alone w Ha). apply yield_alone, Ha. }
  destruct g1 as [c | ]; [ | destruct block ].
  - intros [= <- <-].
    destruct (Hcase (Some c) w1) as (F & P & C & L & N); [ left; auto | ].
    pose proof (frame_record (Queue_get block tmo (Some c)) w1).
    unfold potential, increments_ahead in *. simpl.
    conjs; eauto using frame_trans; try congruence.
  - destruct (pop_idle (yield w1)) as [g2 w2] eqn:E2. intros [= <- <-].
    destruct (Hcase g2 w2) as (F & P & C & L & N); [ right; auto | ].
    pose proof (frame_record (Queue_get true tmo g2) w2).
    unfold potential, increments_ahead in *. simpl.
    conjs; eauto using frame_trans; try congruence.
    intros Hn Ha. rewrite (N Hn Ha). reflexivity.
  - intros [= <- <-].
    destruct (Hcase None w1) as (F & P & C & L & N); [ left; auto | ].
    pose proof (frame_record (Queue_get false tmo None) w1).
    unfold potential, increments_ahead in *. simpl.
    conjs; eauto using frame_trans; try congruence.
    intros Hn Ha. rewrite (N Hn Ha). reflexivity.
Qed.

Lemma frame_set_self (s : state) (w w0 : world) :
  frame w0 w ->
  maxsize s = maxsize (self w) -> _max_overflow s = _max_overflow (self w) ->
  _timeout s = _timeout (self w) ->
  frame w0 (set_self s w).
Proof.
  unfold frame, increments_ahead. simpl.
  intros (F1 & F2 & F3 & F4 & F5 & F6) H1 H2 H3.
  conjs; try congruence; auto.
Qed.

Lemma _inc_overflow_spec (w : world) (ok : bool) (w' : world) :
  _inc_overflow w = (ok, w') ->
  frame w w' /\ created w' = created w /\
  calls w' = calls w ++ [inc_overflow ok] /\
  (_max_overflow (self w) = -1 -> ok = true) /\
  (ok = false ->
     potential w' <= potential w /\
     _max_overflow (self w) <= _overflow (self w') /\
     (others w = [] -> self w' = self w)) /\
  (ok = true -> others w = [] ->
     self w' = set_overflow (_overflow (self w) + 1) (self w)).
Proof.
  unfold _inc_overflow.
  destruct (yield_spec w) as (F & P & C & L).
  pose proof (yield_alone w) as Ha.
  pose proof F as (F1 & F2 & F3 & F4 & F5 & F6).
  destruct (try_inc (self (yield w))) as [b s] eqn:E.
  intros [= <- <-]. simpl.
  assert (Hs : maxsize s = maxsize (self (yield w)) /\
               _max_overflow s = _max_overflow (self (yield w)) /\
               _timeout s = _timeout (self (yield w)) /\
               (_max_overflow (self (yield w)) = -1 -> b = true) /\
               (b = false -> s = self (yield w) /\
                             _max_overflow (self (yield w)) <= _overflow s) /\
               (b = true -> s = set_overflow (_overflow (self (yield w)) + 1)
                                             (self (yield w)))).
  { unfold try_inc in E.
    destruct (_max_overflow (self (yield w)) =? -1) eqn:E1;
      [ | destruct (_overflow (self (yield w)) <? _max_overflow (self (yield w))) eqn:E2 ];
      injection E as <- <-; simpl; conjs; auto; try discriminate;
      try (intros Hm; apply Z.eqb_neq in E1; contradiction).
    intros _. split; [ reflexivity | ]. apply Z.ltb_ge in E2. exact E2. }
  destruct Hs as (S1 & S2 & S3 & S4 & S5 & S6).
  conjs.
  - apply (frame_trans w (set_self s (yield w))); [ | apply frame_record ].
    apply frame_set_self; auto.
  - exact C.
  - rewrite L. reflexivity.
  - intros Hm. apply S4. congruence.
  - intros Hb. destruct (S5 Hb) as [-> Hle]. conjs.
    + unfold potential, increments_ahead in *. simpl. exact P.
    + rewrite <- F2. exact Hle.
    + intros Hal. rewrite (Ha Hal). reflexivity.
  - intros Hb Hal. rewrite (S6 Hb), (Ha Hal). reflexivity.
Qed.

Lemma _dec_overflow_spec (w : world) (u : unit) (w' : world) :
  _dec_overflow w = (u, w') ->
  frame w w' /\ created w' = created w /\
  calls w' = calls w ++ [dec_overflow] /\
  (others w = [] -> self w' = set_overflow (_overflow (self w) - 1) (self w)).
Proof.
  unfold _dec_overflow.
  destruct (yield_spec w) as (F & P & C & L).
  pose proof F as (F1 & F2 & F3 & F4 & F5 & F6).
  intros [= <- <-]; simpl. conjs.
  - eapply frame_trans; [ | apply frame_record ].
    apply frame_set_self; auto.
  - exact C.
  - rewrite L. reflexivity.
  - intros Ha. rewrite (yield_alone w Ha). reflexivity.
Qed.

Lemma _create_connection_spec (w : world) (r : conn + string) (w' : world) :
  _create_connection w = (r, w') ->
  frame w w' /\ r = creator w (created w) /\ created w' = S (created w) /\
  calls w' = calls w ++ [create_connection r] /\
  (others w = [] -> self w' = self w).
Proof.
  unfold _create_connection.
  destruct (yield_spec w) as (F & P & C & L).
  pose proof F as (F1 & F2 & F3 & F4 & F5 & F6).
  intros [= <- <-]; simpl. conjs.
  - unfold frame, increments_ahead in *; simpl; conjs; auto.
  - rewrite F4, C. reflexivity.
  - rewrite C. reflexivity.
  - rewrite L. reflexivity.
  - intros Ha. rewrite (yield_alone w Ha). reflexivity.
Qed.

Lemma warn_pool_full_spec (w : world) (u : unit) (w' : world) :
  warn_pool_full w = (u, w') ->
  frame w w' /\ potential w' <= potential w /\ created w' = created w /\
  calls w' = calls w ++ [logger_warning (maxsize (self w)) (_overflow (self w'))
                                        (_max_overflow (self w))] /\
  (others w = [] -> self w' = self w).
Proof.
  unfold warn_pool_full, bind, size, max_overflow.
  destruct (overflow w) as [ov w1] eqn:E.
  destruct (overflow_spec _ _ _ E) as (-> & F & P & C & L & A).
  pose proof F as (F1 & F2 & F3 & F4 & F5 & F6).
  intros [= <- <-]; simpl. conjs.
  - eapply frame_trans; [ exact F | apply frame_record ].
  - exact P.
  - exact C.
  - rewrite L, F2. reflexivity.
  - exact A.
Qed.

Lemma log_timeout_spec (w : world) (u : unit) (w' : world) :
  log_timeout w = (u, w') -> w' = record (logger_error (_timeout (self w))) w.
Proof.
  unfold log_timeout, bind, timeout. intros [= <- <-]. reflexivity.
Qed.

Lemma reservations_app (a b : list call) :
  reservations (a ++ b) = reservations a + reservations b.
Proof.
  induction a as [ | c a IH ]; simpl; [ lia | ].
  destruct c as [ | | [ | ] | | | | ]; lia.
Qed.

(** *** One activation *)

Lemma body_attempt (rec : M (option (result conn))) (w : world) :
  _do_get_body rec w =
  let (r, w') := attempt w in
  match r with
  | Some x => (Some x, w')
  | None => rec w'
  end.
Proof.
  unfold attempt, _do_get_body, bind, ret, max_overflow, timeout, size.
  repeat match goal with
         | |- context [_ <? _] => destruct (_ <? _)
         | |- context [_ <=? _] => destruct (_ <=? _)
         | |- context [overflow ?x] => destruct (overflow x)
         | |- context [_pool_get ?b ?t ?x] => destruct (_pool_get b t x) as [[[?|]|?] ?]
         | |- context [warn_pool_full ?x] => destruct (warn_pool_full x)
         | |- context [log_timeout ?x] => destruct (log_timeout x)
         | |- context [_inc_overflow ?x] => destruct (_inc_overflow x) as [[|] ?]
         | |- context [_create_connection ?x] => destruct (_create_connection x) as [[?|?] ?]
         | |- context [_dec_overflow ?x] => destruct (_dec_overflow x)
         | |- _ => progress simpl
         end; reflexivity.
Qed.

Lemma set_overflow_back (s : state) (n : Z) :
  set_overflow (n + 1 - 1) (set_overflow (n + 1) s) = set_overflow n s.
Proof. unfold set_overflow. simpl. f_equal. lia. Qed.

Lemma set_overflow_same (s : state) : set_overflow (_overflow s) s = s.
Proof. destruct s. reflexivity. Qed.

Lemma maybe_warn_spec (w : world) (u : unit) (w' : world) :
  (if 0 <=? _overflow (self w) then warn_pool_full
   else fun w0 => (tt, w0)) w = (u, w') ->
  frame w w' /\ created w' = created w /\
  (exists mid, reservations mid = 0 /\ calls w' = calls w ++ mid) /\
  (others w = [] -> self w' = self w).
Proof.
  destruct (0 <=? _overflow (self w)).
  - intros E. apply warn_pool_full_spec in E as (F & _ & C & L & A).
    conjs; auto. eexists. split; [ | exact L ]. reflexivity.
  - intros [= <- <-]. conjs; auto using frame_refl.
    exists []. split; [ reflexivity | ]. rewrite List.app_nil_r. reflexivity.
Qed.

Lemma reserve_spec (w : world) (r : option (result conn)) (w' : world) :
  reserve w = (r, w') ->
  frame w w' /\
  match r with
  | None =>
      created w' = created w /\ calls w' = calls w ++ [inc_overflow false] /\
      potential w' <= potential w /\ _max_overflow (self w) <> -1 /\
      _max_overflow (self w) <= _overflow (self w') /\
      (others w = [] -> self w' = self w)
  | Some (Return c) =>
      creator w (created w) = inl c /\ created w' = S (created w) /\
      exists mid, reservations mid = 0 /\
        calls w' = calls w ++ [inc_overflow true] ++ mid
                           ++ [create_connection (inl c)]
  | Some (Raise (DatabaseError msg)) =>
      creator w (created w) = inr msg /\ created w' = S (created w) /\
      (exists mid, reservations mid = 0 /\
         calls w' = calls w ++ [inc_overflow true] ++ mid
                            ++ [create_connection (inr msg); dec_overflow]) /\
      (others w = [] -> self w' = self w)
  | Some (Raise _) => False
  end.
Proof.
  unfold reserve, bind, ret.
  destruct (_inc_overflow w) as [ok w1] eqn:E1.
  apply _inc_overflow_spec in E1 as (F1 & C1 & L1 & M1 & N1 & A1).
  destruct ok.
  2:{ intros [= <- <-]. destruct (N1 eq_refl) as (P & Hle & Ha).
      conjs; auto. intros Hm. specialize (M1 Hm). discriminate. }
  clear N1 M1. specialize (A1 eq_refl).
  destruct (overflow w1) as [ov w2] eqn:E2.
  apply overflow_spec in E2 as (-> & F2 & _ & C2 & L2 & A2).
  destruct ((if 0 <=? _overflow (self w2) then warn_pool_full
             else fun w0 => (tt, w0)) w2) as [u w3] eqn:E3.
  apply maybe_warn_spec in E3 as (F3 & C3 & (mid & Rmid & L3) & A3).
  destruct (_create_connection w3) as [res w4] eqn:E4.
  apply _create_connection_spec in E4 as (F4 & R4 & C4 & L4 & A4).
  assert (F04 : frame w w4) by eauto using frame_trans.
  assert (Hcr : res = creator w (created w)).
  { destruct F1 as (_ & _ & _ & G1 & _). destruct F2 as (_ & _ & _ & G2 & _).
    destruct F3 as (_ & _ & _ & G3 & _). rewrite R4. congruence. }
  destruct res as [c | msg].
  - intros [= <- <-]. conjs; auto; [ congruence | ].
    exists mid. split; [ exact Rmid | ].
    rewrite L4, L3, L2, L1, <- !List.app_assoc. reflexivity.
  - destruct (_dec_overflow w4) as [u' w5] eqn:E5.
    apply _dec_overflow_spec in E5 as (F5 & C5 & L5 & A5).
    intros [= <- <-]. conjs; eauto using frame_trans; try congruence.
    + exists mid. split; [ exact Rmid | ].
      rewrite L5, L4, L3, L2, L1, <- !List.app_assoc. reflexivity.
    + intros Ha.
      assert (H1 : others w1 = []) by (apply F1, Ha).
      assert (H2 : others w2 = []) by (apply F2, H1).
      assert (H3 : others w3 = []) by (apply F3, H2).
      assert (H4 : others w4 = []) by (apply F4, H3).
      rewrite (A5 H4), (A4 H3), (A3 H2), (A2 H1), (A1 Ha).
      simpl. rewrite set_overflow_back. apply set_overflow_same.
Qed.

Lemma exhausted_spec (w : world) (b : bool) (w' : world) :
  exhausted w = (b, w') ->
  frame w w' /\ potential w' <= potential w /\ created w' = created w /\
  calls w' = calls w /\ (others w = [] -> self w' = self w) /\
  (b = true -> -1 < _max_overflow (self w) <= _overflow (self w')) /\
  (b = false -> -1 < _max_overflow (self w) ->
     _overflow (self w') < _max_overflow (self w)).
Proof.
  unfold exhausted, bind, ret, max_overflow.
  destruct (-1 <? _max_overflow (self w)) eqn:Euse.
  - destruct (overflow w) as [ov w1] eqn:E.
    apply overflow_spec in E as (-> & F & P & C & L & A).
    intros [= <- <-]. conjs; auto.
    + intros Hb. apply Z.leb_le in Hb. apply Z.ltb_lt in Euse. lia.
    + intros Hb _. apply Z.leb_gt in Hb. exact Hb.
  - intros [= <- <-]. apply Z.ltb_ge in Euse.
    conjs; auto using frame_refl; try lia; discriminate.
Qed.

Lemma attempt_unfold (w : world) :
  attempt w =
  let (wait, w1) := exhausted w in
  let (got, w2) := _pool_get wait (_timeout (self w1)) w1 in
  match got with
  | Raise e => (Some (Raise e), w2)
  | Return (Some c) => (Some (Return c), w2)
  | Return None =>
      let (full, w3) := exhausted w2 in
      if full then
        let (_, w4) := warn_pool_full w3 in
        if negb wait then (None, w4)
        else
          let (_, w5) := log_timeout w4 in
          let (ov, w6) := overflow w5 in
          (Some (Raise (TimeoutError (maxsize (self w5)) ov (_timeout (self w6)))),
           w6)
      else reserve w3
  end.
Proof.
  unfold attempt, _do_get_body, exhausted, reserve, bind, ret,
    max_overflow, timeout, size.
  destruct (-1 <? _max_overflow (self w)) eqn:Euse.
  - destruct (overflow w) as [ov1 w1] eqn:E1.
    assert (Hm : _max_overflow (self w1) = _max_overflow (self w)).
    { apply overflow_spec in E1 as (_ & F & _). apply F. }
    destruct (_pool_get _ _ w1) as [[[c | ] | e] w2] eqn:E2; try reflexivity.
    assert (Hm2 : _max_overflow (self w2) = _max_overflow (self w)).
    { apply _pool_get_spec in E2 as (F & _). destruct F as (_ & -> & _). exact Hm. }
    rewrite Hm2, Euse.
    destruct (overflow w2) as [ov2 w3].
    destruct (_ <=? ov2); [ | reflexivity ].
    destruct (warn_pool_full w3) as [u w4].
    destruct (negb _); reflexivity.
  - destruct (_pool_get _ _ w) as [[[c | ] | e] w2] eqn:E2; try reflexivity.
    assert (Hm2 : _max_overflow (self w2) = _max_overflow (self w)).
    { apply _pool_get_spec in E2 as (F & _). apply F. }
    rewrite Hm2, Euse. reflexivity.
Qed.

(** What one activation does, by the way it ends. *)
Lemma attempt_spec (w : world) (r : option (result conn)) (w' : world) :
  attempt w = (r, w') ->
  frame w w' /\
  match r with
  | None =>
      created w' = created w /\
      (exists new, reservations new = 0 /\ calls w' = calls w ++ new) /\
      (others w = [] -> self w' = self w) /\
      _max_overflow (self w) <> -1 /\
      (-1 <= _max_overflow (self w) ->
       (increments_ahead w' < increments_ahead w)%nat)
  | Some (Return c) =>
      (created w' = created w /\
       exists block tmo, calls w' = calls w ++ [Queue_get block tmo (Some c)]) \/
      (creator w (created w) = inl c /\ created w' = S (created w) /\
       exists new, reservations new = 1 /\ calls w' = calls w ++ new)
  | Some (Raise (TimeoutError sz ov tmo)) =>
      sz = maxsize (self w) /\ tmo = _timeout (self w) /\
      ov = _overflow (self w') /\ -1 < _max_overflow (self w) /\
      created w' = created w /\
      (exists ov',
         calls w' = calls w ++ [Queue_get true tmo None;
                                logger_warning sz ov' (_max_overflow (self w));
                                logger_error tmo]) /\
      (others w = [] -> self w' = self w) /\ 0 <= tmo
  | Some (Raise (DatabaseError msg)) =>
      creator w (created w) = inr msg /\ created w' = S (created w) /\
      (exists new, reservations new = 1 /\
         calls w' = calls w ++ new ++ [create_connection (inr msg); dec_overflow]) /\
      (others w = [] -> self w' = self w)
  | Some (Raise ValueError) =>
      -1 < _max_overflow (self w) /\ _timeout (self w) < 0 /\
      created w' = created w /\
      calls w' = calls w ++ [Queue_get_raises true (_timeout (self w)) ValueError] /\
      (others w = [] -> self w' = self w)
  | Some (Raise TypeError) => False
  end.
Proof.
  rewrite attempt_unfold.
  destruct (exhausted w) as [wait w1] eqn:E1.
  apply exhausted_spec in E1 as (F1 & P1 & C1 & L1 & A1 & T1 & N1).
  destruct (_pool_get wait (_timeout (self w1)) w1) as [[[c | ] | e] w2] eqn:E2;
    apply _pool_get_spec in E2 as (F2 & P2 & C2 & Hg).
  3:{ destruct Hg as (-> & -> & Hneg & L2 & A2).
      destruct (T1 eq_refl) as [Tuse _].
      pose proof F1 as (_ & _ & G3 & _ & G5 & _).
      intros [= <- <-]. split; [ eauto using frame_trans | ].
      conjs; try congruence; try lia.
      intros Ha. rewrite (A2 (G5 Ha)). apply A1, Ha. }
  { destruct Hg as (_ & L2 & _).
    intros [= <- <-]. split; [ eauto using frame_trans | ].
    left. split; [ congruence | ]. eexists _, _. rewrite L2, L1. reflexivity. }
  destruct Hg as (Htmo & L2 & A2).
  specialize (A2 eq_refl).
  destruct (exhausted w2) as [full w3] eqn:E3.
  apply exhausted_spec in E3 as (F3 & P3 & C3 & L3 & A3 & T3 & N3).
  assert (F03 : frame w w3) by eauto using frame_trans.
  pose proof F1 as (G1 & G2 & G3 & G4 & G5 & G6).
  pose proof F2 as (H1 & H2 & H3 & H4 & H5 & H6).
  pose proof F3 as (I1 & I2 & I3 & I4 & I5 & I6).
  assert (Hal : others w = [] -> self w3 = self w).
  { intros Ha. rewrite (A3 (H5 (G5 Ha))), (A2 (G5 Ha)). apply A1, Ha. }
  destruct full.
  - (* the overflow slots are all taken *)
    destruct (T3 eq_refl) as [Tuse Tfull].
    destruct (warn_pool_full w3) as [u w4] eqn:E4.
    apply warn_pool_full_spec in E4 as (F4 & P4 & C4 & L4 & A4).
    pose proof F4 as (J1 & J2 & J3 & J4 & J5 & J6).
    destruct wait; simpl negb; cbv iota.
    + (* it waited: the timeout *)
      specialize (Htmo eq_refl).
      destruct (log_timeout w4) as [u' w5] eqn:E5.
      apply log_timeout_spec in E5. subst w5.
      destruct (overflow (record (logger_error (_timeout (self w4))) w4))
        as [ov w6] eqn:E6.
      apply overflow_spec in E6 as (-> & F6 & P6 & C6 & L6 & A6).
      pose proof F6 as (K1 & K2 & K3 & K4 & K5 & K6). simpl in *.
      intros [= <- <-].
      split; [ eapply frame_trans; [ exact F03 | ];
               eapply frame_trans; [ exact F4 | ];
               eapply frame_trans; [ apply frame_record | exact F6 ] | ].
      conjs; try congruence; try lia.
      * exists (_overflow (self w4)).
        rewrite L6. simpl. rewrite L4, L3, L2, L1, <- !List.app_assoc. simpl.
        congruence.
      * intros Ha. rewrite (A6 (J5 (I5 (H5 (G5 Ha))))), (A4 (I5 (H5 (G5 Ha)))).
        apply Hal, Ha.
    + (* it had not waited: once more *)
      intros [= <- <-]. split; [ eauto using frame_trans | ].
      conjs; try congruence.
      * eexists. split; [ | rewrite L4, L3, L2, L1, <- !List.app_assoc; reflexivity ].
        reflexivity.
      * intros Ha. rewrite (A4 (I5 (H5 (G5 Ha)))). apply Hal, Ha.
      * lia.
      * intros Hm.
        assert (Hlt : _overflow (self w1) < _max_overflow (self w)).
        { apply N1; [ reflexivity | lia ]. }
        unfold potential in *. lia.
  - (* a slot may be free *)
    intros E. apply reserve_spec in E as (F & Hr).
    split; [ eauto using frame_trans | ].
    destruct r as [[c | e] | ].
    + destruct Hr as (R1 & R2 & mid & Rm & L). right.
      conjs; try congruence.
      eexists. split; [ | rewrite L, L3, L2, L1, <- !List.app_assoc; reflexivity ].
      rewrite !reservations_app, Rm. reflexivity.
    + destruct e as [ | | | msg ]; try contradiction.
      destruct Hr as (R1 & R2 & (mid & Rm & L) & A). conjs; try congruence.
      * exists ([Queue_get wait (_timeout (self w1)) None; inc_overflow true] ++ mid).
        split; [ rewrite reservations_app, Rm; reflexivity | ].
        rewrite L, L3, L2, L1, <- !List.app_assoc. reflexivity.
      * intros Ha. rewrite (A (I5 (H5 (G5 Ha)))). apply Hal, Ha.
    + destruct Hr as (R1 & L & P & Hne & Hle & A). conjs; try congruence.
      * eexists. split; [ | rewrite L, L3, L2, L1, <- !List.app_assoc; reflexivity ].
        reflexivity.
      * intros Ha. rewrite (A (I5 (H5 (G5 Ha)))). apply Hal, Ha.
      * intros Hm.
        assert (Hlt : _overflow (self w3) < _max_overflow (self w)).
        { rewrite H2, G2 in N3. apply N3; [ reflexivity | lia ]. }
        destruct F as (_ & Fm & _ & _ & _ & Fi).
        unfold potential in *. lia.
Qed.

(** *** The whole call *)

Lemma _do_get_S (n : nat) (w : world) :
  _do_get (S n) w =
  let (r, w') := attempt w in
  match r with
  | Some x => (Some x, w')
  | None => _do_get n w'
  end.
Proof. simpl. apply body_attempt. Qed.

(** What a call that returns or raises has done. *)
Lemma _do_get_spec (n : nat) (w : world) (r : result conn) (w' : world) :
  _do_get n w = (Some r, w') ->
  frame w w' /\
  match r with
  | Return c =>
      (created w' = created w /\
       exists pre block tmo, reservations pre = 0 /\
         calls w' = calls w ++ pre ++ [Queue_get block tmo (Some c)]) \/
      (creator w (created w) = inl c /\ created w' = S (created w) /\
       exists new, reservations new = 1 /\ calls w' = calls w ++ new)
  | Raise (TimeoutError sz ov tmo) =>
      sz = maxsize (self w) /\ tmo = _timeout (self w) /\
      ov = _overflow (self w') /\ -1 < _max_overflow (self w) /\
      created w' = created w /\
      (exists pre ov', reservations pre = 0 /\
         calls w' = calls w ++ pre
                            ++ [Queue_get true tmo None;
                                logger_warning sz ov' (_max_overflow (self w));
                                logger_error tmo]) /\
      (others w = [] -> self w' = self w) /\ 0 <= tmo
  | Raise (DatabaseError msg) =>
      creator w (created w) = inr msg /\ created w' = S (created w) /\
      (exists new, reservations new = 1 /\
         calls w' = calls w ++ new ++ [create_connection (inr msg); dec_overflow]) /\
      (others w = [] -> self w' = self w)
  | Raise ValueError =>
      -1 < _max_overflow (self w) /\ _timeout (self w) < 0 /\
      created w' = created w /\
      (exists pre, reservations pre = 0 /\
         calls w' = calls w ++ pre
                            ++ [Queue_get_raises true (_timeout (self w)) ValueError]) /\
      (others w = [] -> self w' = self w)
  | Raise TypeError => False
  end.
Proof.
  revert w. induction n as [ | n IH ]; intros w; [ discriminate | ].
  rewrite _do_get_S.
  destruct (attempt w) as [[x | ] w1] eqn:E; apply attempt_spec in E as (F & Hx).
  - intros [= <- <-]. split; [ exact F | ].
    destruct x as [c | [ | | sz ov tmo | msg ]]; try contradiction.
    + destruct Hx as [(C & b & t & L) | Hx]; [ left | right; exact Hx ].
      split; [ exact C | ]. exists [], b, t. split; [ reflexivity | exact L ].
    + destruct Hx as (H1 & H2 & H3 & L & A).
      conjs; auto. exists []. split; [ reflexivity | exact L ].
    + destruct Hx as (H1 & H2 & H3 & H4 & H5 & (ov' & L) & A & Ht).
      conjs; auto. exists [], ov'. split; [ reflexivity | exact L ].
    + exact Hx.
  - destruct Hx as (C & (new & Rn & L) & A & _ & _).
    intros E. apply IH in E as (F' & Hr).
    pose proof F as (F1 & F2 & F3 & F4 & F5 & F6).
    split; [ eauto using frame_trans | ].
    destruct r as [c | [ | | sz ov tmo | msg ]]; try contradiction.
    2:{ destruct Hr as (H1 & H2 & H3 & (pre & Rp & L') & A').
        conjs; try congruence; try lia.
        - exists (new ++ pre). split; [ rewrite reservations_app; lia | ].
          rewrite L', L, <- !List.app_assoc. congruence.
        - intros Ha. rewrite (A' (F5 Ha)). apply A, Ha. }
    + destruct Hr as [(C' & pre & b & t & Rp & L') | (R1 & R2 & new' & Rn' & L')];
        [ left | right ].
      * split; [ congruence | ]. exists (new ++ pre), b, t.
        split; [ rewrite reservations_app; lia | ].
        rewrite L', L, <- !List.app_assoc. reflexivity.
      * conjs; try congruence. exists (new ++ new').
        split; [ rewrite reservations_app; lia | ].
        rewrite L', L, <- !List.app_assoc. reflexivity.
    + destruct Hr as (H1 & H2 & H3 & H4 & H5 & (pre & ov' & Rp & L') & A' & Ht).
      conjs; try congruence; try lia.
      * exists (new ++ pre), ov'. split; [ rewrite reservations_app; lia | ].
        rewrite L', L, <- !List.app_assoc. congruence.
      * intros Ha. rewrite (A' (F5 Ha)). apply A, Ha.
    + destruct Hr as (R1 & R2 & (new' & Rn' & L') & A').
      conjs; try congruence.
      * exists (new ++ new'). split; [ rewrite reservations_app; lia | ].
        rewrite L', L, <- !List.app_assoc. reflexivity.
      * intros Ha. rewrite (A' (F5 Ha)). apply A, Ha.
Qed.

(** Every retry uses up a reservation made by another thread, so the
    call ends within as many retries as there are such reservations. *)
Lemma _do_get_ends (n : nat) (w : world) :
  -1 <= _max_overflow (self w) ->
  (increments_ahead w < n)%nat ->
  exists r w', _do_get n w = (Some r, w').
Proof.
  revert w. induction n as [ | n IH ]; intros w Hm Hn; [ lia | ].
  rewrite _do_get_S.
  destruct (attempt w) as [[x | ] w1] eqn:E; apply attempt_spec in E as (F & Hx).
  - eauto.
  - destruct Hx as (_ & _ & _ & _ & Hlt). specialize (Hlt Hm).
    destruct F as (_ & F2 & _).
    apply IH; [ rewrite F2; exact Hm | lia ].
Qed.

(** More fuel does not change a call that ended. *)
Lemma _do_get_more_fuel (n m : nat) (w : world) (r : result conn) (w' : world) :
  _do_get n w = (Some r, w') -> (n <= m)%nat -> _do_get m w = (Some r, w').
Proof.
  revert m w. induction n as [ | n IH ]; intros m w; [ discriminate | ].
  intros E Hle. destruct m as [ | m ]; [ lia | ].
  rewrite _do_get_S in *.
  destruct (attempt w) as [[x | ] w1]; [ exact E | ].
  apply IH; [ exact E | lia ].
Qed.

End QueuePoolFacts.

Section QueuePoolClaims.
Import QueuePool.
Local Open Scope Z_scope.

(** *** A thread alone with the pool *)

Lemma overflow_alone (w : world) :
  others w = [] -> overflow w = (_overflow (self w), w).
Proof. intros Ha. unfold overflow. rewrite (yield_alone w Ha). reflexivity. Qed.

Lemma exhausted_alone (w : world) :
  others w = [] ->
  exhausted w =
  (if -1 <? _max_overflow (self w)
   then _max_overflow (self w) <=? _overflow (self w) else false, w).
Proof.
  intros Ha. unfold exhausted, bind, ret, max_overflow.
  destruct (-1 <? _max_overflow (self w)); [ | reflexivity ].
  rewrite (overflow_alone w Ha). reflexivity.
Qed.

Lemma _pool_get_alone (block : bool) (tmo : Z) (w : world) :
  others w = [] -> _pool (self w) = [] -> block = false \/ 0 <= tmo ->
  _pool_get block tmo w = (Return None, record (Queue_get block tmo None) w).
Proof.
  intros Ha Hq Hb. unfold _pool_get, pop_idle.
  assert (block && (tmo <? 0) = false) as ->.
  { destruct Hb as [-> | Hb]; [ reflexivity | ].
    rewrite (proj2 (Z.ltb_ge _ _) Hb). apply andb_false_r. }
  rewrite (yield_alone w Ha), Hq. destruct block; [ | reflexivity ].
  rewrite (yield_alone w Ha), Hq. reflexivity.
Qed.

Lemma warn_pool_full_alone (w : world) :
  others w = [] ->
  warn_pool_full w =
  (tt, record (logger_warning (maxsize (self w)) (_overflow (self w))
                              (_max_overflow (self w))) w).
Proof.
  intros Ha. unfold warn_pool_full, bind, size, max_overflow.
  rewrite (overflow_alone w Ha). reflexivity.
Qed.

(** Its queue is empty and the overflow slots are all taken. *)
Lemma attempt_alone_exhausted (w : world) :
  others w = [] -> _pool (self w) = [] ->
  -1 < _max_overflow (self w) <= _overflow (self w) ->
  0 <= _timeout (self w) ->
  attempt w =
  (Some (Raise (TimeoutError (maxsize (self w)) (_overflow (self w))
                             (_timeout (self w)))),
   record (logger_error (_timeout (self w)))
     (record (logger_warning (maxsize (self w)) (_overflow (self w))
                             (_max_overflow (self w)))
        (record (Queue_get true (_timeout (self w)) None) w))).
Proof.
  intros Ha Hq [Hu Hf] Ht.
  rewrite attempt_unfold, (exhausted_alone w Ha).
  rewrite (proj2 (Z.ltb_lt _ _) Hu), (proj2 (Z.leb_le _ _) Hf).
  rewrite (_pool_get_alone true _ w Ha Hq (or_intror Ht)).
  rewrite exhausted_alone by exact Ha. simpl self.
  rewrite (proj2 (Z.ltb_lt _ _) Hu), (proj2 (Z.leb_le _ _) Hf).
  rewrite warn_pool_full_alone by exact Ha. simpl negb. cbv iota.
  unfold log_timeout, bind, timeout. rewrite overflow_alone by exact Ha.
  reflexivity.
Qed.

(** Its queue is empty, an overflow slot is free, and the factory fails. *)
Lemma attempt_alone_factory_fails (w : world) (msg : string) :
  others w = [] -> _pool (self w) = [] ->
  _max_overflow (self w) = -1 \/ _overflow (self w) < _max_overflow (self w) ->
  creator w (created w) = inr msg ->
  exists w', attempt w = (Some (Raise (DatabaseError msg)), w').
Proof.
  intros Ha Hq Hfree Hc.
  assert (Hex : (if -1 <? _max_overflow (self w)
                 then _max_overflow (self w) <=? _overflow (self w)
                 else false) = false).
  { destruct (-1 <? _max_overflow (self w)) eqn:E; [ | reflexivity ].
    apply Z.ltb_lt in E. apply Z.leb_gt. lia. }
  rewrite attempt_unfold, (exhausted_alone w Ha), Hex.
  rewrite (_pool_get_alone false _ w Ha Hq (or_introl eq_refl)).
  rewrite exhausted_alone by exact Ha. simpl self. rewrite Hex.
  set (w1 := record _ w).
  assert (Ha1 : others w1 = []) by exact Ha.
  unfold reserve, bind, ret.
  destruct (_inc_overflow w1) as [ok w2] eqn:E2.
  pose proof (_inc_overflow_spec _ _ _ E2) as (F2 & C2 & _ & M2 & N2 & _).
  assert (ok = true) as ->.
  { destruct ok; [ reflexivity | ].
    destruct (N2 eq_refl) as (_ & Hle & Hs). specialize (Hs Ha1).
    rewrite Hs in Hle. simpl in Hle, M2.
    destruct Hfree as [Hm | Hlt]; [ apply M2, Hm | lia ]. }
  destruct (overflow w2) as [ov w3] eqn:E3.
  apply overflow_spec in E3 as (-> & F3 & _ & C3 & _).
  destruct ((if 0 <=? _overflow (self w3) then warn_pool_full
             else fun w0 => (tt, w0)) w3) as [u w4] eqn:E4.
  apply maybe_warn_spec in E4 as (F4 & C4 & _).
  destruct (_create_connection w4) as [res w5] eqn:E5.
  apply _create_connection_spec in E5 as (_ & R5 & _).
  assert (res = inr msg) as ->.
  { destruct F2 as (_ & _ & _ & G2 & _). destruct F3 as (_ & _ & _ & G3 & _).
    destruct F4 as (_ & _ & _ & G4 & _).
    rewrite R5, G4, G3, G2, C4, C3, C2. exact Hc. }
  destruct (_dec_overflow w5) as [u' w6]. eauto.
Qed.

(** C2, as stated, fails: the error is built from the size, the
    overflow and the timeout, and the configured maximum is not among
    them.  A pool with three overflow slots and one with four, where a
    slot comes back just before the raise, fail with the very same
    error; the maximum shows only in the warning logged before it. *)
Lemma timeout_error_omits_max_overflow :
  fst (_do_get 1 (Sample.alone Sample.saturated (inr "refused"%string)))
    = Some (Raise (TimeoutError 2 3 1)) /\
  fst (_do_get 1 Sample.raced) = Some (Raise (TimeoutError 2 3 1)) /\
  _max_overflow (self (Sample.alone Sample.saturated (inr "refused"%string))) = 3 /\
  _max_overflow (self Sample.raced) = 4 /\
  calls (snd (_do_get 1 Sample.raced))
    = [Queue_get true 1 None; logger_warning 2 4 4; logger_error 1].
Proof. repeat split. Qed.

(** C2, amended.  A call that fails with the timeout error had a limit on
    the overflow, waited on the queue for the configured timeout and got
    nothing, and logged the pool-full warning, which names the configured
    maximum, and the timeout error; the exception itself carries the
    configured size, the overflow counter as it is when the call ends and
    the configured timeout.  And a thread alone with an empty queue and
    no overflow slot left, whose timeout is a duration (not negative),
    does fail so, leaving the pool as it was. *)
Theorem timeout_reports_size_overflow_timeout (n : nat) (w : world) :
  (forall sz ov tmo w',
      _do_get n w = (Some (Raise (TimeoutError sz ov tmo)), w') ->
      sz = maxsize (self w) /\ ov = _overflow (self w') /\
      tmo = _timeout (self w) /\ -1 < _max_overflow (self w) /\
      0 <= tmo /\
      exists pre ov',
        calls w' = calls w ++ pre
                           ++ [Queue_get true tmo None;
                               logger_warning sz ov' (_max_overflow (self w));
                               logger_error tmo]) /\
  (others w = [] -> _pool (self w) = [] ->
   -1 < _max_overflow (self w) <= _overflow (self w) ->
   0 <= _timeout (self w) ->
   exists w',
     _do_get (S n) w =
       (Some (Raise (TimeoutError (maxsize (self w)) (_overflow (self w))
                                  (_timeout (self w)))), w') /\
     self w' = self w /\
     calls w' = calls w ++ [Queue_get true (_timeout (self w)) None;
                            logger_warning (maxsize (self w)) (_overflow (self w))
                                           (_max_overflow (self w));
                            logger_error (_timeout (self w))]).
Proof.
  split.
  - intros sz ov tmo w' E. apply _do_get_spec in E as (_ & Hr).
    destruct Hr as (H1 & H2 & H3 & H4 & _ & (pre & ov' & _ & L) & _ & Ht).
    conjs; auto. exists pre, ov'. exact L.
  - intros Ha Hq Hfull Ht. eexists. split; [ | split ].
    + rewrite _do_get_S, (attempt_alone_exhausted w Ha Hq Hfull Ht). reflexivity.
    + reflexivity.
    + simpl. rewrite <- !List.app_assoc. reflexivity.
Qed.

Lemma timeout_reports_size_overflow_timeout_witness :
  exists w',
    _do_get 1 (Sample.alone Sample.saturated (inr "refused"%string))
      = (Some (Raise (TimeoutError 2 3 1)), w') /\
    self w' = Sample.saturated /\
    calls w' = [Queue_get true 1 None; logger_warning 2 3 3; logger_error 1].
Proof.
  apply (proj2 (timeout_reports_size_overflow_timeout 0
                  (Sample.alone Sample.saturated (inr "refused"%string))));
    [ reflexivity | reflexivity | simpl; lia | simpl; lia ].
Defined.

(** C4.  A call that ends with the factory's error called the factory
    once, on top of the one overflow slot it had reserved, raised the
    very error the factory gave, and gave the slot back after the
    failure: over the whole call it holds no slot more than before, and
    with no other thread at work the pool is as it was.  And a thread
    alone with an empty queue and a free slot, whose factory fails, ends
    so. *)
Theorem factory_failure_rolls_back (n : nat) (w : world) (msg : string) :
  (forall w',
      _do_get n w = (Some (Raise (DatabaseError msg)), w') ->
      creator w (created w) = inr msg /\
      created w' = S (created w) /\
      (exists new, reservations new = 1 /\
         calls w' = calls w ++ new
                            ++ [create_connection (inr msg); dec_overflow]) /\
      reservations (calls w') = reservations (calls w) /\
      (others w = [] -> self w' = self w)) /\
  (others w = [] -> _pool (self w) = [] ->
   _max_overflow (self w) = -1 \/ _overflow (self w) < _max_overflow (self w) ->
   creator w (created w) = inr msg ->
   exists w',
     _do_get (S n) w = (Some (Raise (DatabaseError msg)), w') /\
     _overflow (self w') = _overflow (self w) /\
     created w' = S (created w)).
Proof.
  assert (Hsound : forall m w',
             _do_get m w = (Some (Raise (DatabaseError msg)), w') ->
             creator w (created w) = inr msg /\
             created w' = S (created w) /\
             (exists new, reservations new = 1 /\
                calls w' = calls w ++ new
                                   ++ [create_connection (inr msg); dec_overflow]) /\
             reservations (calls w') = reservations (calls w) /\
             (others w = [] -> self w' = self w)).
  { intros m w' E. apply _do_get_spec in E as (_ & R1 & R2 & (new & Rn & L) & A).
    conjs; auto.
    - exists new. split; assumption.
    - rewrite L, !reservations_app, Rn. simpl. lia. }
  split; [ apply Hsound | ].
  intros Ha Hq Hfree Hc.
  destruct (attempt_alone_factory_fails w msg Ha Hq Hfree Hc) as [w' E].
  assert (E' : _do_get (S n) w = (Some (Raise (DatabaseError msg)), w')).
  { rewrite _do_get_S, E. reflexivity. }
  exists w'. destruct (Hsound _ _ E') as (_ & C & _ & _ & A).
  conjs; auto. rewrite (A Ha). reflexivity.
Qed.

Lemma factory_failure_rolls_back_witness :
  exists w',
    _do_get 1 (Sample.alone Sample.roomy (inr "refused"%string))
      = (Some (Raise (DatabaseError "refused")), w') /\
    _overflow (self w') = 2 /\ created w' = 1%nat.
Proof.
  apply (proj2 (factory_failure_rolls_back 0
                  (Sample.alone Sample.roomy (inr "refused"%string)) "refused"));
    [ reflexivity | reflexivity | right; simpl; lia | reflexivity ].
Defined.

(** C6.  With [_max_overflow == -1] a call never calls itself again, so
    it ends whatever the other threads do; and it ends by returning a
    connection or with the error of the factory, never with the timeout
    error. *)
Theorem unlimited_overflow_never_times_out (n : nat) (w : world) :
  _max_overflow (self w) = -1 ->
  (exists r w', _do_get (S n) w = (Some r, w')) /\
  (forall r w',
      _do_get n w = (Some r, w') ->
      (exists c, r = Return c) \/
      (exists msg, r = Raise (DatabaseError msg) /\
                   creator w (created w) = inr msg)).
Proof.
  intros Hm. split.
  - rewrite _do_get_S.
    destruct (attempt w) as [[x | ] w1] eqn:E; [ eauto | ].
    apply attempt_spec in E as (_ & _ & _ & _ & Hne & _). contradiction.
  - intros r w' E. apply _do_get_spec in E as (_ & Hr).
    destruct r as [c | [ | | sz ov tmo | msg ]]; try contradiction.
    + left. eauto.
    + destruct Hr as (Hlt & _). lia.
    + destruct Hr as (_ & _ & _ & Hlt & _). lia.
    + right. exists msg. split; [ reflexivity | apply Hr ].
Qed.

Lemma unlimited_overflow_never_times_out_witness :
  exists r w',
    _do_get 1 (Sample.alone
                 {| maxsize := 2; _pool := []; _overflow := 7;
                    _max_overflow := -1; _timeout := 1 |}
                 (inl 5%positive)) = (Some r, w').
Proof.
  apply (proj1 (unlimited_overflow_never_times_out 0
                  (Sample.alone
                     {| maxsize := 2; _pool := []; _overflow := 7;
                        _max_overflow := -1; _timeout := 1 |}
                     (inl 5%positive)) eq_refl)).
Defined.

(** Below the sentinel the code has no such bound: with
    [_max_overflow < -1] the test for exhausted overflow is off, while
    [_inc_overflow] still compares against the limit and refuses, so a
    thread alone with an empty queue calls itself again on an unchanged
    pool, whatever the fuel. *)
Lemma attempt_alone_below_sentinel (w : world) :
  others w = [] -> _pool (self w) = [] ->
  _max_overflow (self w) < -1 -> _max_overflow (self w) <= _overflow (self w) ->
  exists w', attempt w = (None, w') /\ self w' = self w /\ others w' = [].
Proof.
  intros Ha Hq Hm Hle.
  assert (Hex : (-1 <? _max_overflow (self w)) = false) by (apply Z.ltb_ge; lia).
  rewrite attempt_unfold, (exhausted_alone w Ha), Hex.
  rewrite (_pool_get_alone false _ w Ha Hq (or_introl eq_refl)).
  rewrite exhausted_alone by exact Ha. simpl self. rewrite Hex.
  unfold reserve, bind, ret, _inc_overflow.
  rewrite yield_alone by exact Ha. simpl self. unfold try_inc.
  assert (E1 : (_max_overflow (self w) =? -1) = false) by (apply Z.eqb_neq; lia).
  assert (E2 : (_overflow (self w) <? _max_overflow (self w)) = false)
    by (apply Z.ltb_ge; lia).
  rewrite E1, E2. eexists. split; [ reflexivity | ].
  destruct w as [s o cr n cs]. simpl in *. auto.
Qed.

Remark no_end_below_sentinel (n : nat) (w : world) :
  others w = [] -> _pool (self w) = [] ->
  _max_overflow (self w) < -1 -> _max_overflow (self w) <= _overflow (self w) ->
  fst (_do_get n w) = None.
Proof.
  revert w. induction n as [ | n IH ]; intros w Ha Hq Hm Hle; [ reflexivity | ].
  rewrite _do_get_S.
  destruct (attempt_alone_below_sentinel w Ha Hq Hm Hle) as (w' & -> & Hs & Ho).
  apply IH; rewrite ?Hs; assumption.
Qed.

(** C7.  For a pool configured with a maximum overflow (0 or more) or with
    none (-1) and with a timeout that is a duration (0 or more), a call
    ends, with a returned connection, the timeout error or the factory's
    error, after at most one retry per overflow slot that another thread
    reserves while it runs: [increments_ahead w] retries are enough, and
    a thread that is alone with the pool never retries. *)
Theorem acquisition_ends (w : world) :
  -1 <= _max_overflow (self w) ->
  0 <= _timeout (self w) ->
  exists r w',
    _do_get (S (increments_ahead w)) w = (Some r, w') /\
    match r with
    | Return _ | Raise (TimeoutError _ _ _) | Raise (DatabaseError _) => True
    | Raise _ => False
    end.
Proof.
  intros Hm Ht.
  destruct (_do_get_ends (S (increments_ahead w)) w Hm) as (r & w' & E); [ lia | ].
  exists r, w'. split; [ exact E | ].
  apply _do_get_spec in E as (_ & Hr).
  destruct r as [c | [ | | sz ov tmo | msg ]]; auto.
  destruct Hr as (_ & Hneg & _). lia.
Qed.

Lemma acquisition_ends_witness :
  exists r w',
    _do_get 1 (Sample.alone Sample.saturated (inr "refused"%string)) = (Some r, w') /\
    match r with
    | Return _ | Raise (TimeoutError _ _ _) | Raise (DatabaseError _) => True
    | Raise _ => False
    end.
Proof.
  apply (acquisition_ends (Sample.alone Sample.saturated (inr "refused"%string)));
    simpl; lia.
Defined.

End QueuePoolClaims.


(** ** [connect] and its keyword arguments *)

Section ConnectFacts.
Import Registry.

(** What lines 151 to 157 leave under each name. *)
Lemma connect_kwargs_lookup (kwargs kwargs' : gmap string argval) (k : string) :
  connect_kwargs kwargs = inr kwargs' ->
  kwargs' !! k =
  if decide (k = "conv"%string \/ k = "ssl"%string) then
    match kwargs !! k with
    | Some a =>
        if arg_truthy (Some a) then
          match HashableDict_new a with
          | inr hd => Some hd
          | inl _ => None
          end
        else None
    | None => None
    end
  else kwargs !! k.
Proof.
  unfold connect_kwargs.
  assert (Hssl : delete "conv"%string kwargs !! "ssl"%string = kwargs !! "ssl"%string)
    by (apply lookup_delete_ne; discriminate).
  rewrite Hssl.
  destruct (kwargs !! "conv"%string) as [c | ] eqn:Ec;
    destruct (kwargs !! "ssl"%string) as [s | ] eqn:Es.
  all: repeat match goal with
         | |- context [arg_truthy ?x] => destruct (arg_truthy x) eqn:?
         | |- context [HashableDict_new ?x] => destruct (HashableDict_new x) eqn:?
         end; try discriminate.
  all: intros [= <-].
  all: destruct (decide (k = "conv"%string)) as [-> | Hc];
    [ | destruct (decide (k = "ssl"%string)) as [-> | Hs] ].
  all: repeat match goal with
         | |- context [decide ?P] => destruct (decide P) as [ [?|?] | ? ]
         end; try congruence; try tauto.
  all: simplify_map_eq; try reflexivity.
  all: repeat match goal with
         | H : ?x = _ |- context [?x] => rewrite H
         end; try reflexivity.
Qed.



End ConnectFacts.

(** ** [get_pool] and the pools of a process *)

Section RegistryFacts.
Import Registry.
Local Open Scope Z_scope.

(** The first [get_pool] of a process: the manager it builds. *)
Lemma get_pool_first (p : process) :
  MYSQLPOOL p = None ->
  let args := default ∅ (MYSQLPOOL_ARGUMENTS p) in
  let kwargs :=
    <["echo"%string := CBool false]>
      (setdefault "recycle" (CInt DEFAULT_POOL_TIMEOUT)
         (setdefault "poolclass" QueuePool_class args)) in
  fst (get_pool p) =
  {| poolclass := default sqlalchemy_QueuePool (kwargs !! "poolclass"%string);
     kw := delete "poolclass"%string kwargs; pools := [];
     _pid := Some (getpid p); registered := true |}.
Proof.
  intros Hn. unfold get_pool. rewrite Hn. simpl.
  rewrite bool_decide_true by reflexivity. reflexivity.
Qed.

Lemma setdefault_lookup {V : Type} (k k' : string) (v : V) (d : gmap string V) :
  setdefault k v d !! k' =
  if decide (k = k') then Some (default v (d !! k)) else d !! k'.
Proof.
  unfold setdefault. destruct (d !! k) as [x | ] eqn:E; simpl.
  - destruct (decide (k = k')) as [<- | ]; [ exact E | reflexivity ].
  - destruct (decide (k = k')) as [<- | Hne].
    + apply lookup_insert_eq.
    + apply lookup_insert_ne, Hne.
Qed.

(** C9, as stated, fails: with [echo] set to [True] in
    [MYSQLPOOL_ARGUMENTS], the pool is built with [echo=False]. *)
Lemma echo_setting_is_overridden :
  Sample.echo_on !! "echo"%string = Some (CBool true) /\
  Sample.setting "echo"
    (fst (connect (Sample.params Sample.conv12)
                  (start 100 (Some Sample.echo_on) Sample.hashes)))
  = Some (CBool false).
Proof. split; vm_compute; reflexivity. Qed.

(** C9, amended.  The pool a process builds on its first [connect] gets
    the class named by [poolclass] in [MYSQLPOOL_ARGUMENTS] (the module's
    [QueuePool] without one), the [recycle] given there (119 without
    one) and every other setting as it is given, except [echo]: that is
    [False] whatever the settings say. *)
Theorem pool_built_from_settings (p : process) (kwargs : gmap string argval)
    (pl : Pool) :
  MYSQLPOOL p = None ->
  fst (connect kwargs p) = Return pl ->
  let args := default ∅ (MYSQLPOOL_ARGUMENTS p) in
  pool_kw pl !! "echo"%string = Some (CBool false) /\
  pool_class pl = default QueuePool_class (args !! "poolclass"%string) /\
  pool_kw pl !! "recycle"%string
    = Some (default (CInt DEFAULT_POOL_TIMEOUT) (args !! "recycle"%string)) /\
  pool_kw pl !! "poolclass"%string = None /\
  (forall k, k <> "echo"%string -> k <> "poolclass"%string ->
             k <> "recycle"%string -> pool_kw pl !! k = args !! k).
Proof.
  intros Hn E args. subst args. revert E. unfold connect.
  destruct (connect_kwargs kwargs) as [e | kwargs']; [ discriminate | ].
  pose proof (get_pool_first p Hn) as Hm. simpl in Hm.
  destruct (get_pool p) as [m p1] eqn:Eg. simpl in Hm.
  assert (Hp1 : next_id p1 = next_id p /\ hashing p1 = hashing p).
  { unfold get_pool in Eg. rewrite Hn in Eg. injection Eg as _ <-. auto. }
  unfold DBProxy_get_pool.
  destruct (key_hash (hashing p1) (_serialize kwargs')); [ | discriminate ].
  rewrite Hm at 1. simpl pools_find. simpl fst.
  intros [= <-]. simpl. rewrite Hm. simpl. conjs.
  - rewrite lookup_delete_ne by discriminate. apply lookup_insert_eq.
  - rewrite lookup_insert_ne by discriminate.
    rewrite !setdefault_lookup. simpl.
    destruct (default ∅ (MYSQLPOOL_ARGUMENTS p) !! "poolclass"%string);
      reflexivity.
  - rewrite lookup_delete_ne by discriminate.
    rewrite lookup_insert_ne by discriminate.
    rewrite !setdefault_lookup. simpl. reflexivity.
  - apply lookup_delete_eq.
  - intros k H1 H2 H3.
    rewrite lookup_delete_ne by congruence.
    rewrite lookup_insert_ne by congruence.
    rewrite !setdefault_lookup.
    rewrite !decide_False by congruence. reflexivity.
Qed.

Lemma pool_built_from_settings_witness :
  let p := start 100 (Some Sample.echo_on) Sample.hashes in
  let pl :=
    {| pool_id := 1; pool_class := QueuePool_class;
       pool_kw := <["echo"%string := CBool false]>
                    (<["recycle"%string := CInt 119]>
                       (<["pool_size"%string := CInt 5]> ∅));
       creator_kw := creator_kw (Sample.pool12 1) |} in
  fst (connect (Sample.params Sample.conv12) p) = Return pl /\
  pool_kw pl !! "echo"%string = Some (CBool false).
Proof.
  intros p pl.
  assert (E : fst (connect (Sample.params Sample.conv12) p) = Return pl)
    by (vm_compute; reflexivity).
  split; [ exact E | ].
  exact (proj1 (pool_built_from_settings p (Sample.params Sample.conv12) pl
                  eq_refl E)).
Defined.

(** *** Keys *)

Lemma insert_by_name_In (x y : string * argval) (l : list (string * argval)) :
  In x (insert_by_name y l) -> x = y \/ In x l.
Proof.
  induction l as [ | z l IH ]; simpl.
  - intros [<- | []]. left. reflexivity.
  - destruct (String.leb (fst y) (fst z)); simpl.
    + intros [<- | H]; auto.
    + intros [<- | H]; [ right; left; reflexivity | ].
      destruct (IH H); auto.
Qed.

Lemma sorted_items_In (kwargs : gmap string argval) (n : string) (a : argval) :
  In (n, a) (sorted_items kwargs) -> kwargs !! n = Some a.
Proof.
  unfold sorted_items. intros H.
  apply elem_of_map_to_list, list_elem_of_In.
  induction (map_to_list kwargs) as [ | y l IH ]; simpl in H; [ destruct H | ].
  apply insert_by_name_In in H as [<- | H]; [ left; reflexivity | ].
  right. apply IH, H.
Qed.

Lemma arg_eqb_refl (a : argval) : arg_wf a = true -> arg_eqb a a = true.
Proof.
  destruct a as [v | d | d]; simpl; intros H.
  - apply pyval_eqb_refl.
  - apply dict_eqb_refl, H.
  - apply dict_eqb_refl, H.
Qed.

Lemma pairs_eqb_refl (l : list (string * argval)) :
  (forall n a, In (n, a) l -> arg_wf a = true) -> pairs_eqb l l = true.
Proof.
  induction l as [ | [n a] l IH ]; intros H; [ reflexivity | ].
  simpl. rewrite String.eqb_refl, arg_eqb_refl, IH; auto.
  - intros n' a' Hin. apply (H n' a'). right. exact Hin.
  - apply (H n a). left. reflexivity.
Qed.

Lemma _serialize_eqb_refl (kwargs : gmap string argval) :
  (forall n a, kwargs !! n = Some a -> arg_wf a = true) ->
  key_eqb (_serialize kwargs) (_serialize kwargs) = true.
Proof.
  intros H. unfold _serialize.
  destruct (kwargs !! "sa_pool_key"%string) as [a | ] eqn:E; simpl.
  - apply arg_eqb_refl. apply (H _ _ E).
  - apply pairs_eqb_refl. intros n a Hin. apply (H n a).
    apply sorted_items_In, Hin.
Qed.

Lemma kwargs_wf_lookup (kwargs : gmap string argval) (n : string) (a : argval) :
  kwargs_wf kwargs = true -> kwargs !! n = Some a -> arg_wf a = true.
Proof.
  unfold kwargs_wf. rewrite forallb_forall. intros H Hl.
  apply (H (n, a)). apply list_elem_of_In, elem_of_map_to_list, Hl.
Qed.

Lemma update_from_pairs_unique (seq : list pyval) (d d' : pydict) :
  unique_keys d = true ->
  HashableDict.update_from_pairs d seq = inr d' -> unique_keys d' = true.
Proof.
  revert d. induction seq as [ | x seq IH ]; simpl; intros d Hu.
  - intros [= <-]. exact Hu.
  - destruct (iter x) as [[ | k [ | v [ | ? ? ]]] | ]; try discriminate.
    destruct (HashableDict.hashable k); [ | discriminate ].
    apply IH, dict_set_unique, Hu.
Qed.

Lemma HashableDict_new_wf (a hd : argval) :
  arg_wf a = true -> HashableDict_new a = inr hd -> arg_wf hd = true.
Proof.
  destruct a as [v | d | d]; simpl; intros Hw.
  - destruct (iter v) as [seq | ]; [ | discriminate ].
    destruct (HashableDict.update_from_pairs [] seq) as [e | d] eqn:E;
      [ discriminate | ].
    intros [= <-]. simpl. eapply update_from_pairs_unique; [ | exact E ].
    reflexivity.
  - intros [= <-]. exact Hw.
  - intros [= <-]. exact Hw.
Qed.

Lemma connect_kwargs_wf (kwargs kwargs' : gmap string argval) :
  kwargs_wf kwargs = true -> connect_kwargs kwargs = inr kwargs' ->
  key_eqb (_serialize kwargs') (_serialize kwargs') = true.
Proof.
  intros Hw E. apply _serialize_eqb_refl. intros n a Hin.
  rewrite (connect_kwargs_lookup _ _ n E) in Hin.
  destruct (decide (n = "conv"%string \/ n = "ssl"%string)).
  - destruct (kwargs !! n) as [a0 | ] eqn:E0; [ | discriminate ].
    destruct (arg_truthy (Some a0)); [ | discriminate ].
    destruct (HashableDict_new a0) as [e | hd] eqn:E1; [ discriminate | ].
    injection Hin as <-.
    eapply HashableDict_new_wf; [ | exact E1 ].
    eapply kwargs_wf_lookup; eassumption.
  - eapply kwargs_wf_lookup; eassumption.
Qed.

(** *** The pools of a manager *)

Lemma pools_find_app (ph : process_hash) (k : key) (h : Z)
    (ps extra : list (key * Pool)) (pl : Pool) :
  pools_find ph k h ps = Some pl -> pools_find ph k h (ps ++ extra) = Some pl.
Proof.
  unfold pools_find. induction ps as [ | kp ps IH ]; simpl; [ discriminate | ].
  destruct (match key_hash ph (fst kp) with
            | Some h' => (h' =? h) && key_eqb (fst kp) k
            | None => false
            end); [ auto | exact IH ].
Qed.

Lemma pools_find_new (ph : process_hash) (k : key) (h : Z)
    (ps : list (key * Pool)) (pl : Pool) :
  pools_find ph k h ps = None -> key_hash ph k = Some h ->
  key_eqb k k = true ->
  pools_find ph k h (ps ++ [(k, pl)]) = Some pl.
Proof.
  unfold pools_find. intros Hn Hh He.
  induction ps as [ | kp ps IH ]; simpl in *.
  - rewrite Hh, Z.eqb_refl, He. reflexivity.
  - destruct (match key_hash ph (fst kp) with
              | Some h' => (h' =? h) && key_eqb (fst kp) k
              | None => false
              end); [ discriminate | apply IH, Hn ].
Qed.

(** *** [get_pool] *)

(** After [get_pool] the manager either carries the identifier of the
    running process or is out of [pool.proxies]. *)
Lemma get_pool_spec (p : process) (m : DBProxy) (p' : process) :
  get_pool p = (m, p') ->
  MYSQLPOOL p' = Some m /\ getpid p' = getpid p /\ hashing p' = hashing p /\
  next_id p' = next_id p /\
  (_pid m = Some (getpid p) \/ registered m = false).
Proof.
  unfold get_pool.
  destruct (MYSQLPOOL p) as [m0 | ]; simpl.
  - destruct (bool_decide (_pid m0 = Some (getpid p))) eqn:E; intros [= <- <-];
      simpl; conjs; auto.
    + left. apply bool_decide_eq_true in E. exact E.
    + right. unfold clear_managers. destruct (registered m0) eqn:R; auto.
  - rewrite bool_decide_true by reflexivity. intros [= <- <-]. simpl.
    conjs; auto.
Qed.

(** Then a further [get_pool] in the same process changes nothing. *)
Lemma get_pool_again (p : process) (m : DBProxy) :
  MYSQLPOOL p = Some m ->
  _pid m = Some (getpid p) \/ registered m = false ->
  fst (get_pool p) = m /\ pools (fst (get_pool p)) = pools m.
Proof.
  intros Hm Hs. unfold get_pool. rewrite Hm. simpl.
  destruct (bool_decide (_pid m = Some (getpid p))) eqn:E; simpl; [ auto | ].
  apply bool_decide_eq_false in E.
  destruct Hs as [Hs | Hs]; [ contradiction | ].
  unfold clear_managers. rewrite Hs. auto.
Qed.

(** A [connect] in a process whose manager is in that state leaves it
    there, in the same process, with the pools it had and maybe one
    more. *)
Lemma connect_step (kwargs : gmap string argval) (p : process)
    (r : result Pool) (p' : process) (m : DBProxy) :
  connect kwargs p = (r, p') ->
  MYSQLPOOL p = Some m ->
  _pid m = Some (getpid p) \/ registered m = false ->
  getpid p' = getpid p /\ hashing p' = hashing p /\
  exists m' extra,
    MYSQLPOOL p' = Some m' /\ pools m' = pools m ++ extra /\
    (_pid m' = Some (getpid p') \/ registered m' = false).
Proof.
  unfold connect. intros E Hm Hs.
  destruct (connect_kwargs kwargs) as [e | kwargs'].
  { injection E as _ <-. conjs; auto. exists m, []. rewrite List.app_nil_r. auto. }
  destruct (get_pool_again p m Hm Hs) as [Hfst _].
  destruct (get_pool p) as [m1 p1] eqn:Eg. simpl in Hfst. subst m1.
  apply get_pool_spec in Eg as (G1 & G2 & G3 & G4 & G5).
  unfold DBProxy_get_pool in E.
  destruct (key_hash (hashing p1) (_serialize kwargs')) as [h | ].
  - destruct (pools_find (hashing p1) (_serialize kwargs') h (pools m)) as [pl | ].
    + injection E as _ <-. simpl. conjs; auto.
      exists m, []. rewrite List.app_nil_r, G2. auto.
    + injection E as _ <-. simpl. conjs; auto.
      eexists _, _. simpl. rewrite G2. split; [ reflexivity | ].
      split; [ reflexivity | exact Hs ].
  - injection E as _ <-. simpl. conjs; auto.
    exists m, []. rewrite List.app_nil_r, G2. auto.
Qed.

Lemma connects_step (between : list (gmap string argval)) (p : process)
    (m : DBProxy) :
  MYSQLPOOL p = Some m ->
  _pid m = Some (getpid p) \/ registered m = false ->
  getpid (connects between p) = getpid p /\
  hashing (connects between p) = hashing p /\
  exists m' extra,
    MYSQLPOOL (connects between p) = Some m' /\
    pools m' = pools m ++ extra /\
    (_pid m' = Some (getpid p) \/ registered m' = false).
Proof.
  revert p m. induction between as [ | kwargs rest IH ]; intros p m Hm Hs; simpl.
  - conjs; auto. exists m, []. rewrite List.app_nil_r. auto.
  - destruct (connect kwargs p) as [r p1] eqn:E. simpl.
    destruct (connect_step _ _ _ _ _ E Hm Hs) as (P1 & H1 & m1 & ex1 & M1 & L1 & S1).
    destruct (IH p1 m1 M1 S1) as (P2 & H2 & m2 & ex2 & M2 & L2 & S2).
    conjs; try congruence.
    exists m2, (ex1 ++ ex2). conjs; auto.
    + rewrite L2, L1, <- List.app_assoc. reflexivity.
    + rewrite <- P1. exact S2.
Qed.

(** The pool a [connect] returned is filed under the key of the call. *)
Lemma connect_filed (kwargs : gmap string argval) (p : process)
    (pl : Pool) (p1 : process) :
  kwargs_wf kwargs = true ->
  connect kwargs p = (Return pl, p1) ->
  getpid p1 = getpid p /\ hashing p1 = hashing p /\
  exists kwargs' h m1,
    connect_kwargs kwargs = inr kwargs' /\
    key_hash (hashing p) (_serialize kwargs') = Some h /\
    MYSQLPOOL p1 = Some m1 /\
    (_pid m1 = Some (getpid p1) \/ registered m1 = false) /\
    pools_find (hashing p) (_serialize kwargs') h (pools m1) = Some pl.
Proof.
  intros Hw. unfold connect.
  destruct (connect_kwargs kwargs) as [e | kwargs'] eqn:Ek; [ discriminate | ].
  destruct (get_pool p) as [m p0] eqn:Eg.
  apply get_pool_spec in Eg as (G1 & G2 & G3 & G4 & G5).
  unfold DBProxy_get_pool. rewrite G3.
  destruct (key_hash (hashing p) (_serialize kwargs')) as [h | ] eqn:Eh;
    [ | discriminate ].
  destruct (pools_find (hashing p) (_serialize kwargs') h (pools m)) as [pl0 | ] eqn:Ef.
  - intros [= <- <-]. simpl. conjs; auto.
    exists kwargs', h, m. rewrite G2. conjs; auto.
  - intros [= <- <-]. simpl. conjs; auto.
    eexists kwargs', h, _. simpl. rewrite G2. conjs; try reflexivity; auto.
    apply pools_find_new; auto.
    eapply connect_kwargs_wf; eassumption.
Qed.

(** C8.  Once a [connect] has returned a pool, every later [connect]
    with the same arguments in the same process returns that very pool,
    whatever other calls to [connect] the process makes in between. *)
Theorem same_key_same_pool (p : process) (kwargs : gmap string argval)
    (pl : Pool) (between : list (gmap string argval)) :
  kwargs_wf kwargs = true ->
  fst (connect kwargs p) = Return pl ->
  fst (connect kwargs (connects between (snd (connect kwargs p)))) = Return pl /\
  getpid (connects between (snd (connect kwargs p))) = getpid p.
Proof.
  intros Hw E0.
  destruct (connect kwargs p) as [r p1] eqn:E. simpl in E0. subst r. simpl snd.
  destruct (connect_filed _ _ _ _ Hw E)
    as (P1 & H1 & kwargs' & h & m1 & Ek & Eh & M1 & S1 & F1).
  destruct (connects_step between p1 m1 M1 S1)
    as (P2 & H2 & m2 & extra & M2 & L2 & S2).
  split; [ | congruence ].
  unfold connect. rewrite Ek.
  rewrite <- P2 in S2.
  destruct (get_pool_again _ _ M2 S2) as [Hfst _].
  destruct (get_pool (connects between p1)) as [m p2] eqn:Eg.
  simpl in Hfst. subst m.
  apply get_pool_spec in Eg as (G1 & G2 & G3 & G4 & G5).
  unfold DBProxy_get_pool. rewrite G3, H2, H1, Eh, L2.
  rewrite (pools_find_app _ _ _ _ extra _ F1). reflexivity.
Qed.

Lemma same_key_same_pool_witness :
  let kwargs := Sample.params Sample.conv12 in
  let child := fork 200 (snd (connect kwargs (start 100 None Sample.hashes))) in
  fst (connect kwargs child) = Return (Sample.pool12 2) /\
  fst (connect kwargs
         (connects [Sample.params Sample.conv21; kwargs]
                   (snd (connect kwargs child))))
    = Return (Sample.pool12 2).
Proof.
  intros kwargs child.
  assert (Hw : kwargs_wf kwargs = true) by (vm_compute; reflexivity).
  assert (E : fst (connect kwargs child) = Return (Sample.pool12 2))
    by (vm_compute; reflexivity).
  split; [ exact E | ].
  exact (proj1 (same_key_same_pool child kwargs (Sample.pool12 2)
                  [Sample.params Sample.conv21; kwargs] Hw E)).
Defined.

(** C3, on the input where it fails.  Process 100 builds the manager and
    a pool; its child 200 finds the recorded identifier stale, drops the
    pool and builds pool 2; the child of that child, 300, finds the
    recorded identifier (still 100) stale as well, but the manager is no
    longer in [pool.proxies], nothing is cleared, and its [connect]
    returns pool 2, the pool of its parent. *)
Theorem second_fork_inherits_pool :
  let kwargs := Sample.params Sample.conv12 in
  let parent := connect kwargs (start 100 None Sample.hashes) in
  let child := connect kwargs (fork 200 (snd parent)) in
  let grandchild := fork 300 (snd child) in
  pool_id <$> Sample.returned (fst parent) = Some 1%positive /\
  pool_id <$> Sample.returned (fst child) = Some 2%positive /\
  _pid <$> MYSQLPOOL grandchild = Some (Some 100) /\
  getpid grandchild = 300 /\
  fst (connect kwargs grandchild) = fst child.
Proof. repeat split; vm_compute; reflexivity. Qed.

End RegistryFacts.

(** ** More on [QueuePool._do_get] *)

Section QueuePoolMore.
Import QueuePool Invariant.
Local Open Scope Z_scope.

(** *** A thread alone: the two ways to a connection *)

Lemma _inc_overflow_alone (w : world) :
  others w = [] ->
  _max_overflow (self w) = -1 \/ _overflow (self w) < _max_overflow (self w) ->
  _inc_overflow w =
  (true, record (inc_overflow true)
           (set_self (set_overflow (_overflow (self w) + 1) (self w)) w)).
Proof.
  intros Ha Hfree. unfold _inc_overflow. rewrite (yield_alone w Ha).
  unfold try_inc.
  destruct (_max_overflow (self w) =? -1) eqn:E1; [ reflexivity | ].
  apply Z.eqb_neq in E1.
  assert (E2 : (_overflow (self w) <? _max_overflow (self w)) = true)
    by (apply Z.ltb_lt; lia).
  rewrite E2. reflexivity.
Qed.

Lemma _create_connection_alone (w : world) :
  others w = [] ->
  _create_connection w =
  (creator w (created w),
   record (create_connection (creator w (created w)))
     {| self := self w; others := others w; creator := creator w;
        created := S (created w); calls := calls w |}).
Proof.
  intros Ha. unfold _create_connection. rewrite (yield_alone w Ha). reflexivity.
Qed.

(** An idle connection is handed out oldest first, with no call of the
    factory, no change of the overflow counter and nothing logged: when
    an overflow slot is free or there is no limit, and also when the
    overflow slots are all taken, if the timeout that the blocking [get]
    is then given is not negative (a negative one is refused with
    [ValueError]). *)
Theorem idle_connection_reused (n : nat) (w : world) (c : conn) (q : list conn) :
  others w = [] -> _pool (self w) = c :: q ->
  0 <= _timeout (self w) \/ _max_overflow (self w) <= -1 \/
    _overflow (self w) < _max_overflow (self w) ->
  exists w',
    _do_get (S n) w = (Some (Return c), w') /\
    self w' = set_pool q (self w) /\
    created w' = created w /\
    calls w' =
      calls w ++ [Queue_get (if -1 <? _max_overflow (self w)
                             then _max_overflow (self w) <=? _overflow (self w)
                             else false)
                            (_timeout (self w)) (Some c)].
Proof.
  intros Ha Hq Hok.
  rewrite _do_get_S, attempt_unfold, (exhausted_alone w Ha).
  set (wait := if -1 <? _max_overflow (self w)
               then _max_overflow (self w) <=? _overflow (self w) else false).
  assert (Hget : wait && (_timeout (self w) <? 0) = false).
  { destruct Hok as [Ht | [Hm | Hlt]].
    - rewrite (proj2 (Z.ltb_ge _ _) Ht). apply andb_false_r.
    - unfold wait. rewrite (proj2 (Z.ltb_ge _ _)) by lia. reflexivity.
    - unfold wait. rewrite (proj2 (Z.leb_gt _ _) Hlt).
      destruct (-1 <? _max_overflow (self w)); reflexivity. }
  unfold _pool_get. rewrite (yield_alone w Ha), Hget. unfold pop_idle. rewrite Hq.
  eexists. split; [ reflexivity | ]. simpl. conjs; auto.
Qed.

Lemma idle_connection_reused_witness :
  exists w',
    _do_get 1 {| self := {| maxsize := 2; _pool := [7; 9]%positive; _overflow := 3;
                            _max_overflow := 3; _timeout := 1 |};
                 others := []; creator := fun _ => inr "refused"%string;
                 created := 0; calls := [] |} = (Some (Return 7%positive), w') /\
    _pool (self w') = [9%positive].
Proof.
  assert (Hduration : 0 <= 1 \/ 3 <= -1 \/ 3 < 3) by (left; lia).
  destruct (idle_connection_reused 0
              {| self := {| maxsize := 2; _pool := [7; 9]%positive; _overflow := 3;
                            _max_overflow := 3; _timeout := 1 |};
                 others := []; creator := fun _ => inr "refused"%string;
                 created := 0; calls := [] |} 7%positive [9%positive]
              eq_refl eq_refl Hduration) as (w' & E & Hs & _).
  exists w'. split; [ exact E | ]. rewrite Hs. reflexivity.
Defined.

(** A negative timeout.  With a limit on the overflow and the slots all
    taken, the blocking [get] is given the configured timeout, refuses a
    negative one with [ValueError] before it looks at the queue, and
    [_do_get] lets the error through: no connection is handed out even
    when idle ones are waiting, nothing is logged, the factory is not
    called and the pool is left as it was.  And a call ends with
    [ValueError] in no other way. *)
Theorem negative_timeout_raises_ValueError (n : nat) (w : world) :
  (forall w',
      _do_get n w = (Some (Raise ValueError), w') ->
      -1 < _max_overflow (self w) /\ _timeout (self w) < 0 /\
      created w' = created w /\
      (exists pre, reservations pre = 0 /\
         calls w' = calls w ++ pre
                            ++ [Queue_get_raises true (_timeout (self w)) ValueError]) /\
      (others w = [] -> self w' = self w)) /\
  (others w = [] ->
   -1 < _max_overflow (self w) <= _overflow (self w) ->
   _timeout (self w) < 0 ->
   _do_get (S n) w =
     (Some (Raise ValueError),
      record (Queue_get_raises true (_timeout (self w)) ValueError) w)).
Proof.
  split.
  - intros w' E. apply _do_get_spec in E as (_ & Hr). exact Hr.
  - intros Ha [Hu Hf] Ht.
    rewrite _do_get_S, attempt_unfold, (exhausted_alone w Ha).
    rewrite (proj2 (Z.ltb_lt _ _) Hu), (proj2 (Z.leb_le _ _) Hf).
    unfold _pool_get. rewrite (yield_alone w Ha).
    rewrite (proj2 (Z.ltb_lt _ _) Ht). reflexivity.
Qed.

Lemma negative_timeout_raises_ValueError_witness :
  _do_get 1 {| self := {| maxsize := 2; _pool := [7; 9]%positive; _overflow := 3;
                          _max_overflow := 3; _timeout := -1 |};
               others := []; creator := fun _ => inr "refused"%string;
               created := 0; calls := [] |}
  = (Some (Raise ValueError),
     {| self := {| maxsize := 2; _pool := [7; 9]%positive; _overflow := 3;
                   _max_overflow := 3; _timeout := -1 |};
        others := []; creator := fun _ => inr "refused"%string;
        created := 0; calls := [Queue_get_raises true (-1) ValueError] |}).
Proof.
  apply (proj2 (negative_timeout_raises_ValueError 0
                  {| self := {| maxsize := 2; _pool := [7; 9]%positive;
                                _overflow := 3; _max_overflow := 3;
                                _timeout := -1 |};
                     others := []; creator := fun _ => inr "refused"%string;
                     created := 0; calls := [] |}));
    [ reflexivity | simpl; lia | simpl; lia ].
Defined.

(** With an empty queue and a free overflow slot the thread reserves the
    slot and calls the factory once; the connection it gets is returned,
    the counter stays one up, and the pool-full warning is logged exactly
    when the counter has reached 0, that is from the connection that
    fills the pool on. *)
Theorem new_connection_when_room (n : nat) (w : world) (c : conn) :
  others w = [] -> _pool (self w) = [] ->
  _max_overflow (self w) = -1 \/ _overflow (self w) < _max_overflow (self w) ->
  creator w (created w) = inl c ->
  exists w',
    _do_get (S n) w = (Some (Return c), w') /\
    self w' = set_overflow (_overflow (self w) + 1) (self w) /\
    created w' = S (created w) /\
    calls w' =
      calls w ++ [Queue_get false (_timeout (self w)) None; inc_overflow true]
              ++ (if 0 <=? _overflow (self w) + 1
                  then [logger_warning (maxsize (self w)) (_overflow (self w) + 1)
                                       (_max_overflow (self w))]
                  else [])
              ++ [create_connection (inl c)].
Proof.
  intros Ha Hq Hfree Hc.
  assert (Hex : (if -1 <? _max_overflow (self w)
                 then _max_overflow (self w) <=? _overflow (self w)
                 else false) = false).
  { destruct (-1 <? _max_overflow (self w)) eqn:E; [ | reflexivity ].
    apply Z.ltb_lt in E. apply Z.leb_gt. lia. }
  rewrite _do_get_S, attempt_unfold, (exhausted_alone w Ha), Hex.
  rewrite (_pool_get_alone false _ w Ha Hq (or_introl eq_refl)).
  rewrite exhausted_alone by exact Ha. simpl self. rewrite Hex.
  unfold reserve, bind, ret.
  rewrite _inc_overflow_alone by (simpl; assumption). simpl self.
  rewrite overflow_alone by exact Ha.
  set (w1 := record (inc_overflow true) _).
  assert (Ha1 : others w1 = []) by exact Ha.
  change (_overflow (self w1)) with (_overflow (self w) + 1).
  destruct (0 <=? _overflow (self w) + 1).
  - rewrite warn_pool_full_alone by exact Ha1.
    rewrite _create_connection_alone by exact Ha1. simpl. rewrite Hc.
    eexists. split; [ reflexivity | ]. simpl. conjs; auto.
    rewrite <- !List.app_assoc. reflexivity.
  - rewrite _create_connection_alone by exact Ha1. simpl. rewrite Hc.
    eexists. split; [ reflexivity | ]. simpl. conjs; auto.
    rewrite <- !List.app_assoc. reflexivity.
Qed.

Lemma new_connection_when_room_witness :
  exists w',
    _do_get 1 (Sample.alone Sample.roomy (inl 5%positive))
      = (Some (Return 5%positive), w') /\
    _overflow (self w') = 3.
Proof.
  assert (Hroom : _max_overflow Sample.roomy = -1 \/
                  _overflow Sample.roomy < _max_overflow Sample.roomy)
    by (right; simpl; lia).
  destruct (new_connection_when_room 0 (Sample.alone Sample.roomy (inl 5%positive))
              5%positive eq_refl eq_refl Hroom eq_refl) as (w' & E & Hs & _).
  exists w'. split; [ exact E | ]. rewrite Hs. reflexivity.
Defined.

End QueuePoolMore.

Section QueuePoolInvariants.
Import QueuePool Invariant.
Local Open Scope Z_scope.

(** *** The overflow counter stays within its limit *)

Lemma env_step_bounded (s : state) (e : env_event) :
  bounded s -> bounded (env_step s e).
Proof.
  unfold bounded. intros [Hm Hle].
  destruct e; unfold env_step, try_inc; simpl;
    repeat match goal with
           | |- context [if ?b then _ else _] => destruct b eqn:?
           end; simpl; split; auto; try lia.
  all: repeat match goal with
              | H : (_ <? _) = true |- _ => apply Z.ltb_lt in H
              end; lia.
Qed.

Lemma env_run_bounded (es : list env_event) (s : state) :
  bounded s -> bounded (env_run es s).
Proof.
  unfold env_run. revert s.
  induction es as [ | e es IH ]; intros s H; simpl; [ exact H | ].
  apply IH, env_step_bounded, H.
Qed.

Lemma yield_bounded (w : world) : bounded (self w) -> bounded (self (yield w)).
Proof.
  unfold yield. destruct (others w); [ auto | ]. simpl. apply env_run_bounded.
Qed.

Lemma overflow_bounded (w : world) (ov : Z) (w' : world) :
  overflow w = (ov, w') -> bounded (self w) -> bounded (self w').
Proof. unfold overflow. intros [= _ <-]. apply yield_bounded. Qed.

Lemma pop_idle_bounded (w : world) (got : option conn) (w' : world) :
  pop_idle w = (got, w') -> bounded (self w) -> bounded (self w').
Proof.
  unfold pop_idle. destruct (_pool (self w)); intros [= _ <-]; auto.
Qed.

Lemma _pool_get_bounded (block : bool) (tmo : Z) (w : world)
    (got : result (option conn)) (w' : world) :
  _pool_get block tmo w = (got, w') -> bounded (self w) -> bounded (self w').
Proof.
  unfold _pool_get. intros E H.
  destruct (block && (tmo <? 0));
    [ injection E as _ <-; apply yield_bounded, H | ].
  destruct (pop_idle (yield w)) as [g1 w1] eqn:E1.
  assert (H1 : bounded (self w1))
    by (eapply pop_idle_bounded; [ exact E1 | apply yield_bounded, H ]).
  destruct g1 as [c | ]; [ | destruct block ].
  - injection E as _ <-. exact H1.
  - destruct (pop_idle (yield w1)) as [g2 w2] eqn:E2. injection E as _ <-.
    simpl. eapply pop_idle_bounded; [ exact E2 | apply yield_bounded, H1 ].
  - injection E as _ <-. exact H1.
Qed.

Lemma try_inc_bounded (s : state) : bounded s -> bounded (snd (try_inc s)).
Proof. apply (env_step_bounded s other_inc). Qed.

Lemma _inc_overflow_bounded (w : world) (ok : bool) (w' : world) :
  _inc_overflow w = (ok, w') -> bounded (self w) -> bounded (self w').
Proof.
  unfold _inc_overflow. intros E H.
  pose proof (try_inc_bounded _ (yield_bounded w H)) as H1.
  destruct (try_inc (self (yield w))) as [b s]. injection E as _ <-. exact H1.
Qed.

Lemma _dec_overflow_bounded (w : world) (u : unit) (w' : world) :
  _dec_overflow w = (u, w') -> bounded (self w) -> bounded (self w').
Proof.
  unfold _dec_overflow. intros E H. injection E as _ <-.
  destruct (yield_bounded w H) as [Hm Hle]. split; simpl; [ exact Hm | lia ].
Qed.

Lemma _create_connection_bounded (w : world) (r : conn + string) (w' : world) :
  _create_connection w = (r, w') -> bounded (self w) -> bounded (self w').
Proof. unfold _create_connection. intros [= _ <-]. apply yield_bounded. Qed.

Lemma warn_pool_full_bounded (w : world) (u : unit) (w' : world) :
  warn_pool_full w = (u, w') -> bounded (self w) -> bounded (self w').
Proof.
  unfold warn_pool_full, bind, size, max_overflow.
  destruct (overflow w) as [ov w1] eqn:E. intros E'. injection E' as _ <-.
  apply (overflow_bounded _ _ _ E).
Qed.

Lemma exhausted_bounded (w : world) (b : bool) (w' : world) :
  exhausted w = (b, w') -> bounded (self w) -> bounded (self w').
Proof.
  unfold exhausted, bind, ret, max_overflow.
  destruct (-1 <? _max_overflow (self w)).
  - destruct (overflow w) as [ov w1] eqn:E. intros [= _ <-].
    apply (overflow_bounded _ _ _ E).
  - intros [= _ <-]. auto.
Qed.

Lemma reserve_bounded (w : world) (r : option (result conn)) (w' : world) :
  reserve w = (r, w') -> bounded (self w) -> bounded (self w').
Proof.
  unfold reserve, bind, ret. intros E H.
  destruct (_inc_overflow w) as [ok w1] eqn:E1.
  pose proof (_inc_overflow_bounded _ _ _ E1 H) as H1.
  destruct ok; [ | injection E as _ <-; exact H1 ].
  destruct (overflow w1) as [ov w2] eqn:E2.
  pose proof (overflow_bounded _ _ _ E2 H1) as H2.
  assert (H3 : forall u w3,
             (if 0 <=? ov then warn_pool_full else fun w0 => (tt, w0)) w2 = (u, w3) ->
             bounded (self w3)).
  { intros u w3. destruct (0 <=? ov).
    - intros E3. apply (warn_pool_full_bounded _ _ _ E3 H2).
    - intros E3. injection E3 as _ <-. exact H2. }
  destruct ((if 0 <=? ov then warn_pool_full else fun w0 => (tt, w0)) w2)
    as [u w3] eqn:E3.
  specialize (H3 _ _ eq_refl).
  destruct (_create_connection w3) as [res w4] eqn:E4.
  pose proof (_create_connection_bounded _ _ _ E4 H3) as H4.
  destruct res as [c | msg].
  - injection E as _ <-. exact H4.
  - destruct (_dec_overflow w4) as [u' w5] eqn:E5. injection E as _ <-.
    apply (_dec_overflow_bounded _ _ _ E5 H4).
Qed.

Lemma attempt_bounded (w : world) (r : option (result conn)) (w' : world) :
  attempt w = (r, w') -> bounded (self w) -> bounded (self w').
Proof.
  rewrite attempt_unfold. intros E H.
  destruct (exhausted w) as [wait w1] eqn:E1.
  pose proof (exhausted_bounded _ _ _ E1 H) as H1.
  destruct (_pool_get wait (_timeout (self w1)) w1) as [got w2] eqn:E2.
  pose proof (_pool_get_bounded _ _ _ _ _ E2 H1) as H2.
  destruct got as [[c | ] | e]; [ injection E as _ <-; exact H2 | |
                                  injection E as _ <-; exact H2 ].
  destruct (exhausted w2) as [full w3] eqn:E3.
  pose proof (exhausted_bounded _ _ _ E3 H2) as H3.
  destruct full; [ | apply (reserve_bounded _ _ _ E H3) ].
  destruct (warn_pool_full w3) as [u w4] eqn:E4.
  pose proof (warn_pool_full_bounded _ _ _ E4 H3) as H4.
  destruct (negb wait); [ injection E as _ <-; exact H4 | ].
  destruct (log_timeout w4) as [u' w5] eqn:E5.
  apply log_timeout_spec in E5. subst w5.
  destruct (overflow (record (logger_error (_timeout (self w4))) w4))
    as [ov w6] eqn:E6.
  injection E as _ <-. apply (overflow_bounded _ _ _ E6). exact H4.
Qed.

(** With a limit configured, a pool that is within it stays within it
    through every call of [_do_get], however the call ends (also when
    the fuel runs out) and whatever the other threads do meanwhile: the
    pool never holds more than [size + max_overflow] connections. *)
Theorem overflow_stays_within_limit (n : nat) (w : world)
    (r : option (result conn)) (w' : world) :
  bounded (self w) -> _do_get n w = (r, w') -> bounded (self w').
Proof.
  revert w. induction n as [ | n IH ]; intros w H.
  - intros [= _ <-]. exact H.
  - rewrite _do_get_S.
    destruct (attempt w) as [[x | ] w1] eqn:E;
      pose proof (attempt_bounded _ _ _ E H) as H1.
    + intros [= _ <-]. exact H1.
    + apply IH, H1.
Qed.

Lemma overflow_stays_within_limit_witness :
  bounded (self (snd (_do_get 1 Sample.raced))).
Proof.
  apply (overflow_stays_within_limit 1 Sample.raced
           (fst (_do_get 1 Sample.raced)) (snd (_do_get 1 Sample.raced))).
  - split; simpl; [ discriminate | lia ].
  - reflexivity.
Defined.

End QueuePoolInvariants.

Section QueuePoolAccounting.
Import QueuePool Invariant.
Local Open Scope Z_scope.

(** *** The counter and the slots a thread holds *)

Lemma in_step_refl (w : world) : others w = [] -> in_step w w.
Proof. unfold in_step. auto. Qed.

Lemma in_step_trans (w1 w2 w3 : world) :
  in_step w1 w2 -> in_step w2 w3 -> in_step w1 w3.
Proof. unfold in_step. intros [A1 A2] [B1 B2]. split; [ exact B1 | lia ]. Qed.

Lemma overflow_in_step (w : world) (ov : Z) (w' : world) :
  others w = [] -> overflow w = (ov, w') -> in_step w w'.
Proof.
  intros Ha E. rewrite (overflow_alone w Ha) in E. injection E as _ <-.
  apply in_step_refl, Ha.
Qed.

Lemma _pool_get_in_step (block : bool) (tmo : Z) (w : world)
    (got : result (option conn)) (w' : world) :
  others w = [] -> _pool_get block tmo w = (got, w') -> in_step w w'.
Proof.
  intros Ha. unfold _pool_get. rewrite (yield_alone w Ha). unfold pop_idle.
  destruct (block && (tmo <? 0)).
  { intros [= _ <-]. unfold in_step. simpl.
    rewrite reservations_app. simpl. split; [ exact Ha | lia ]. }
  destruct (_pool (self w)) as [ | c q ] eqn:Hq.
  - destruct block.
    + rewrite (yield_alone w Ha), Hq. intros [= _ <-]. unfold in_step. simpl.
      rewrite reservations_app. simpl. split; [ exact Ha | lia ].
    + intros [= _ <-]. unfold in_step. simpl.
      rewrite reservations_app. simpl. split; [ exact Ha | lia ].
  - intros [= _ <-]. unfold in_step. simpl.
    rewrite reservations_app. simpl. split; [ exact Ha | lia ].
Qed.

Lemma _inc_overflow_in_step (w : world) (ok : bool) (w' : world) :
  others w = [] -> _inc_overflow w = (ok, w') -> in_step w w'.
Proof.
  intros Ha E.
  apply _inc_overflow_spec in E as (F & _ & L & _ & N & A).
  destruct F as (_ & _ & _ & _ & Fo & _).
  split; [ apply Fo, Ha | ]. rewrite L, reservations_app.
  destruct ok.
  - rewrite (A eq_refl Ha). simpl. lia.
  - destruct (N eq_refl) as (_ & _ & Hs). rewrite (Hs Ha). simpl. lia.
Qed.

Lemma _dec_overflow_in_step (w : world) (u : unit) (w' : world) :
  others w = [] -> _dec_overflow w = (u, w') -> in_step w w'.
Proof.
  intros Ha E. apply _dec_overflow_spec in E as (F & _ & L & A).
  destruct F as (_ & _ & _ & _ & Fo & _).
  split; [ apply Fo, Ha | ].
  rewrite L, reservations_app, (A Ha). simpl. lia.
Qed.

Lemma _create_connection_in_step (w : world) (r : conn + string) (w' : world) :
  others w = [] -> _create_connection w = (r, w') -> in_step w w'.
Proof.
  intros Ha E. apply _create_connection_spec in E as (F & _ & _ & L & A).
  destruct F as (_ & _ & _ & _ & Fo & _).
  split; [ apply Fo, Ha | ].
  rewrite L, reservations_app, (A Ha). simpl. lia.
Qed.

Lemma warn_pool_full_in_step (w : world) (u : unit) (w' : world) :
  others w = [] -> warn_pool_full w = (u, w') -> in_step w w'.
Proof.
  intros Ha E. apply warn_pool_full_spec in E as (F & _ & _ & L & A).
  destruct F as (_ & _ & _ & _ & Fo & _).
  split; [ apply Fo, Ha | ].
  rewrite L, reservations_app, (A Ha). simpl. lia.
Qed.

Lemma exhausted_in_step (w : world) (b : bool) (w' : world) :
  others w = [] -> exhausted w = (b, w') -> in_step w w'.
Proof.
  intros Ha E. rewrite (exhausted_alone w Ha) in E. injection E as _ <-.
  apply in_step_refl, Ha.
Qed.

Lemma reserve_in_step (w : world) (r : option (result conn)) (w' : world) :
  others w = [] -> reserve w = (r, w') -> in_step w w'.
Proof.
  unfold reserve, bind, ret. intros Ha E.
  destruct (_inc_overflow w) as [ok w1] eqn:E1.
  pose proof (_inc_overflow_in_step _ _ _ Ha E1) as S1.
  destruct ok; [ | injection E as _ <-; exact S1 ].
  destruct (overflow w1) as [ov w2] eqn:E2.
  pose proof (overflow_in_step _ _ _ (proj1 S1) E2) as S2.
  assert (S3 : forall u w3,
             (if 0 <=? ov then warn_pool_full else fun w0 => (tt, w0)) w2 = (u, w3) ->
             in_step w2 w3).
  { intros u w3. destruct (0 <=? ov).
    - apply warn_pool_full_in_step, S2.
    - intros E3. injection E3 as _ <-. apply in_step_refl, S2. }
  destruct ((if 0 <=? ov then warn_pool_full else fun w0 => (tt, w0)) w2)
    as [u w3] eqn:E3.
  specialize (S3 _ _ eq_refl).
  destruct (_create_connection w3) as [res w4] eqn:E4.
  pose proof (_create_connection_in_step _ _ _ (proj1 S3) E4) as S4.
  destruct res as [c | msg].
  - injection E as _ <-. eauto using in_step_trans.
  - destruct (_dec_overflow w4) as [u' w5] eqn:E5. injection E as _ <-.
    pose proof (_dec_overflow_in_step _ _ _ (proj1 S4) E5) as S5.
    eauto using in_step_trans.
Qed.

Lemma attempt_in_step (w : world) (r : option (result conn)) (w' : world) :
  others w = [] -> attempt w = (r, w') -> in_step w w'.
Proof.
  rewrite attempt_unfold. intros Ha E.
  destruct (exhausted w) as [wait w1] eqn:E1.
  pose proof (exhausted_in_step _ _ _ Ha E1) as S1.
  destruct (_pool_get wait (_timeout (self w1)) w1) as [got w2] eqn:E2.
  pose proof (_pool_get_in_step _ _ _ _ _ (proj1 S1) E2) as S2.
  destruct got as [[c | ] | e];
    [ injection E as _ <-; eauto using in_step_trans | |
      injection E as _ <-; eauto using in_step_trans ].
  destruct (exhausted w2) as [full w3] eqn:E3.
  pose proof (exhausted_in_step _ _ _ (proj1 S2) E3) as S3.
  destruct full.
  - destruct (warn_pool_full w3) as [u w4] eqn:E4.
    pose proof (warn_pool_full_in_step _ _ _ (proj1 S3) E4) as S4.
    destruct (negb wait); [ injection E as _ <-; eauto using in_step_trans | ].
    destruct (log_timeout w4) as [u' w5] eqn:E5.
    apply log_timeout_spec in E5. subst w5.
    assert (S5 : in_step w4 (record (logger_error (_timeout (self w4))) w4)).
    { split; [ exact (proj1 S4) | ]. simpl. rewrite reservations_app. simpl. lia. }
    destruct (overflow (record (logger_error (_timeout (self w4))) w4))
      as [ov w6] eqn:E6.
    pose proof (overflow_in_step _ _ _ (proj1 S5) E6) as S6.
    injection E as _ <-. eauto 6 using in_step_trans.
  - pose proof (reserve_in_step _ _ _ (proj1 S3) E) as S4.
    eauto using in_step_trans.
Qed.

Lemma _do_get_in_step (n : nat) (w : world) (r : option (result conn)) (w' : world) :
  others w = [] -> _do_get n w = (r, w') -> in_step w w'.
Proof.
  revert w. induction n as [ | n IH ]; intros w Ha.
  - intros [= _ <-]. apply in_step_refl, Ha.
  - rewrite _do_get_S.
    destruct (attempt w) as [[x | ] w1] eqn:E;
      pose proof (attempt_in_step _ _ _ Ha E) as S1.
    + intros [= _ <-]. exact S1.
    + intros E'. apply IH in E'; [ | exact (proj1 S1) ].
      eauto using in_step_trans.
Qed.

(** However a call ends and whatever the other threads do, it calls the
    factory at most once, and it leaves holding one overflow slot exactly
    when it returns a connection the factory made; with an idle
    connection, the timeout error, the factory's error or the error of a
    refused timeout it holds none.
    With no other thread at work the counter has moved by just that. *)
Theorem overflow_accounting (n : nat) (w : world) (r : result conn) (w' : world) :
  _do_get n w = (Some r, w') ->
  (created w <= created w' <= S (created w))%nat /\
  reservations (calls w') - reservations (calls w)
  = match r with
    | Return _ => Z.of_nat (created w' - created w)
    | Raise _ => 0
    end /\
  (others w = [] ->
   _overflow (self w') - _overflow (self w)
   = reservations (calls w') - reservations (calls w)).
Proof.
  intros E. pose proof E as E0. apply _do_get_spec in E as (_ & Hr).
  assert (Hal : others w = [] ->
                _overflow (self w') - _overflow (self w)
                = reservations (calls w') - reservations (calls w)).
  { intros Ha. destruct (_do_get_in_step _ _ _ _ Ha E0) as [_ Hb]. lia. }
  assert (Hmain : (created w <= created w' <= S (created w))%nat /\
                  reservations (calls w') - reservations (calls w)
                  = match r with
                    | Return _ => Z.of_nat (created w' - created w)
                    | Raise _ => 0
                    end).
  { destruct r as [c | [ | | sz ov tmo | msg ]]; try contradiction.
    - destruct Hr as [(C & pre & b & t & Rp & L) | (R1 & R2 & new & Rn & L)].
      + rewrite C, L, !reservations_app, Rp, Nat.sub_diag. simpl. lia.
      + rewrite R2, L, !reservations_app, Rn.
        replace (S (created w) - created w)%nat with 1%nat by lia. lia.
    - destruct Hr as (_ & _ & C & (pre & Rp & L) & _).
      rewrite C, L, !reservations_app, Rp. simpl. lia.
    - destruct Hr as (_ & _ & _ & _ & C & (pre & ov' & Rp & L) & _).
      rewrite C, L, !reservations_app, Rp. simpl. lia.
    - destruct Hr as (_ & C & (new & Rn & L) & _).
      rewrite C, L, !reservations_app, Rn. simpl. lia. }
  destruct Hmain as [H1 H2]. conjs; auto; apply H1.
Qed.

Lemma overflow_accounting_witness :
  reservations (calls (snd (_do_get 1 (Sample.alone Sample.roomy (inl 5%positive)))))
  - reservations (calls (Sample.alone Sample.roomy (inl 5%positive)))
  = Z.of_nat (created (snd (_do_get 1 (Sample.alone Sample.roomy (inl 5%positive))))
              - created (Sample.alone Sample.roomy (inl 5%positive))).
Proof.
  exact (proj1 (proj2 (overflow_accounting 1
                         (Sample.alone Sample.roomy (inl 5%positive))
                         (Return 5%positive)
                         (snd (_do_get 1 (Sample.alone Sample.roomy (inl 5%positive))))
                         eq_refl))).
Defined.

End QueuePoolAccounting.

(** ** More on [HashableDict] *)

Section HashableDictMore.
Import HashableDict.

Lemma sequence_is_Some (os : list (option Z)) :
  is_Some (sequence os) <-> Forall is_Some os.
Proof.
  induction os as [ | o os IH ]; simpl.
  - split; [ constructor | eauto ].
  - split.
    + intros [xs E]. destruct o as [x | ]; [ | discriminate ].
      destruct (sequence os) as [ys | ]; [ | discriminate ].
      constructor; [ eauto | apply IH; eauto ].
    + intros H. inversion H as [ | ? ? [x ->] Hos ]; subst.
      apply IH in Hos as [ys ->]. eauto.
Qed.

(** [hash] raises exactly on the values that hold a list. *)
Lemma hash_hashable (ph : process_hash) (v : pyval) :
  is_Some (hash ph v) <-> hashable v = true.
Proof.
  induction v as [ | z | s | id | xs IH | xs IH ] using pyval_nested_ind;
    simpl; try (split; eauto; fail).
  - change (is_Some (option_map tuplehash (sequence (map (hash ph) xs)))
            <-> forallb hashable xs = true).
    assert (Hs : is_Some (option_map tuplehash (sequence (map (hash ph) xs)))
                 <-> is_Some (sequence (map (hash ph) xs))).
    { destruct (sequence (map (hash ph) xs)); simpl; split; eauto;
        intros [? ?]; discriminate. }
    rewrite Hs, sequence_is_Some, forallb_forall, List.Forall_map, List.Forall_forall.
    rewrite List.Forall_forall in IH.
    split; intros H x Hx; apply (IH x Hx), H, Hx.
  - split; [ intros [? ?]; discriminate | discriminate ].
Qed.

(** [HashableDict.__hash__] succeeds exactly when, in every item whose
    value is iterable, the key and every element of the value can be
    hashed; it raises [TypeError] otherwise (a value that is a list of
    lists, say).  What an item with a value that is not iterable holds
    never matters. *)
Theorem hash_defined_iff (ph : process_hash) (d : pydict) :
  is_Some (__hash__ ph d) <->
  (forall n v xs, In (n, v) d -> iter v = Some xs ->
                  hashable n = true /\ forallb hashable xs = true).
Proof.
  unfold __hash__. rewrite hash_hashable. simpl. rewrite items_filter.
  rewrite forallb_forall. split.
  - intros H n v xs Hin Hv.
    specialize (H (VTuple [n; VTuple xs])). simpl in H.
    rewrite !andb_true_r in H. apply andb_prop, H.
    apply List.in_map_iff. exists (n, v). simpl. rewrite Hv. simpl.
    split; [ reflexivity | ].
    apply List.filter_In. split; [ exact Hin | ].
    unfold isiterable. simpl. rewrite Hv. reflexivity.
  - intros H x Hx. apply List.in_map_iff in Hx as ([n v] & <- & Hin).
    apply List.filter_In in Hin as [Hin Hit]. simpl in *.
    unfold isiterable in Hit. destruct (iter v) as [xs | ] eqn:Hv; [ | discriminate ].
    destruct (H n v xs Hin Hv) as [Hn Hxs]. simpl.
    rewrite Hn, Hxs. reflexivity.
Qed.

(** [==] on values is equality. *)
Lemma pyval_eqb_eq (a b : pyval) : pyval_eqb a b = true -> a = b.
Proof.
  revert b.
  induction a as [ | z | s | id | xs IH | xs IH ] using pyval_nested_ind;
    intros [ | z' | s' | id' | ys | ys ]; simpl; try discriminate.
  - reflexivity.
  - intros H. apply Z.eqb_eq in H. congruence.
  - intros H. apply String.eqb_eq in H. congruence.
  - intros H. apply Pos.eqb_eq in H. congruence.
  - intros H. f_equal. revert ys H.
    induction IH as [ | x xs Hx _ IHxs ]; intros [ | y ys ]; try discriminate;
      [ reflexivity | ].
    intros H. apply andb_prop in H as [H1 H2].
    f_equal; [ apply Hx, H1 | apply IHxs, H2 ].
  - intros H. f_equal. revert ys H.
    induction IH as [ | x xs Hx _ IHxs ]; intros [ | y ys ]; try discriminate;
      [ reflexivity | ].
    intros H. apply andb_prop in H as [H1 H2].
    f_equal; [ apply Hx, H1 | apply IHxs, H2 ].
Qed.

(** Two lists of items with the same keys in the same order, whose
    values agree wherever a key is in both, are the same list. *)
Lemma items_in_step (l1 l2 : pydict) :
  map fst l1 = map fst l2 ->
  (forall k v1 v2, In (k, v1) l1 -> In (k, v2) l2 -> v1 = v2) ->
  l1 = l2.
Proof.
  revert l2. induction l1 as [ | [k v] l1 IH ]; intros [ | [k' v'] l2 ] Hk Hv;
    try discriminate; [ reflexivity | ].
  simpl in Hk. injection Hk as <- Hk.
  rewrite (Hv k v v') by (left; reflexivity).
  f_equal. apply IH; [ exact Hk | ].
  intros k0 v1 v2 H1 H2. apply (Hv k0); right; assumption.
Qed.

Lemma dict_eqb_value (a b : pydict) (k v1 v2 : pyval) :
  unique_keys b = true -> dict_eqb a b = true ->
  In (k, v1) a -> In (k, v2) b -> v1 = v2.
Proof.
  unfold dict_eqb. intros Hu He H1 H2.
  apply andb_prop in He as [_ Hall]. rewrite forallb_forall in Hall.
  specialize (Hall _ H1). simpl in Hall.
  rewrite (dict_get_own b k v2 Hu H2) in Hall.
  apply pyval_eqb_eq, Hall.
Qed.

(** The key of each tuple that [__hash__] hashes. *)
Lemma items_keys (d : pydict) :
  map (fun x => match x with VTuple (n :: _) => n | _ => VNone end) (items d)
  = map fst (List.filter (fun nv => isiterable (snd nv)) d).
Proof.
  rewrite items_filter, List.map_map. reflexivity.
Qed.

(** Where the order of a dictionary reaches its hash.  Of two equal
    dictionaries [__hash__] hashes the same tuple exactly when the items
    whose value is iterable come in the same order in both; the items
    whose value is not iterable (the converter functions of a [conv]) may
    stand anywhere.  So two equal dictionaries that agree on that order
    have the same hash. *)
Theorem iterable_items_order_decides_hash (ph : process_hash) (a b : pydict) :
  unique_keys b = true -> __eq__ a b = true ->
  (items a = items b <->
   map fst (List.filter (fun nv => isiterable (snd nv)) a)
   = map fst (List.filter (fun nv => isiterable (snd nv)) b)) /\
  (map fst (List.filter (fun nv => isiterable (snd nv)) a)
   = map fst (List.filter (fun nv => isiterable (snd nv)) b) ->
   __hash__ ph a = __hash__ ph b).
Proof.
  intros Hu He.
  assert (Hitems : map fst (List.filter (fun nv => isiterable (snd nv)) a)
                   = map fst (List.filter (fun nv => isiterable (snd nv)) b) ->
                   items a = items b).
  { intros Hk. rewrite !items_filter. f_equal.
    apply items_in_step; [ exact Hk | ].
    intros k v1 v2 H1 H2.
    apply List.filter_In in H1 as [H1 _]. apply List.filter_In in H2 as [H2 _].
    exact (dict_eqb_value a b k v1 v2 Hu He H1 H2). }
  split; [ split; [ | exact Hitems ] | ].
  - intros E. rewrite <- !items_keys, E. reflexivity.
  - intros Hk. unfold __hash__. rewrite (Hitems Hk). reflexivity.
Qed.

Lemma iterable_items_order_decides_hash_witness :
  __hash__ Sample.hashes
    [(VInt 1, VList [VInt 2]); (VInt 10, VObj 7); (VInt 3, VList [VInt 4])]
  = __hash__ Sample.hashes
      [(VInt 10, VObj 7); (VInt 1, VList [VInt 2]); (VInt 3, VList [VInt 4])].
Proof.
  apply (proj2 (iterable_items_order_decides_hash Sample.hashes
                  [(VInt 1, VList [VInt 2]); (VInt 10, VObj 7);
                   (VInt 3, VList [VInt 4])]
                  [(VInt 10, VObj 7); (VInt 1, VList [VInt 2]);
                   (VInt 3, VList [VInt 4])]
                  eq_refl eq_refl)).
  reflexivity.
Defined.

End HashableDictMore.

(** ** More on [connect] and [get_pool] *)

Section RegistryMore.
Import Registry.
Local Open Scope Z_scope.

(** A [conv] or [ssl] that is truthy but cannot be iterated (a number, an
    object) makes [connect] raise [TypeError] out of [HashableDict(...)],
    before [get_pool] is called: the process is left as it was, with no
    manager built. *)
Theorem connect_rejects_non_mapping (kwargs : gmap string argval) (p : process)
    (v : pyval) :
  truthy v = true -> iter v = None ->
  (kwargs !! "conv"%string = Some (AVal v) ->
   connect kwargs p = (Raise TypeError, p)) /\
  (kwargs !! "ssl"%string = Some (AVal v) ->
   arg_truthy (kwargs !! "conv"%string) = false ->
   connect kwargs p = (Raise TypeError, p)).
Proof.
  intros Ht Hi.
  assert (Hnew : HashableDict_new (AVal v) = inl TypeError)
    by (simpl; rewrite Hi; reflexivity).
  assert (Hssl : delete "conv"%string kwargs !! "ssl"%string = kwargs !! "ssl"%string)
    by (apply lookup_delete_ne; discriminate).
  split.
  - intros Hc. unfold connect, connect_kwargs. rewrite Hc. simpl arg_truthy.
    rewrite Ht, Hnew. reflexivity.
  - intros Hs Hc. unfold connect, connect_kwargs. rewrite Hssl, Hs.
    destruct (kwargs !! "conv"%string) as [a | ]; simpl arg_truthy in *.
    + rewrite Hc, Ht, Hnew. reflexivity.
    + rewrite Ht, Hnew. reflexivity.
Qed.

Lemma connect_rejects_non_mapping_witness :
  connect (<["conv"%string := AVal (VInt 5)]> (Sample.params Sample.conv12))
          (start 100 None Sample.hashes)
  = (Raise TypeError, start 100 None Sample.hashes).
Proof.
  apply (proj1 (connect_rejects_non_mapping
                  (<["conv"%string := AVal (VInt 5)]> (Sample.params Sample.conv12))
                  (start 100 None Sample.hashes) (VInt 5) eq_refl eq_refl)).
  vm_compute. reflexivity.
Defined.

(** [get_pool] twice in a row is [get_pool] once: the second call returns
    the same manager and leaves the process as the first left it. *)
Theorem get_pool_idempotent (p : process) :
  get_pool (snd (get_pool p)) = get_pool p.
Proof.
  destruct (get_pool p) as [m p'] eqn:E. simpl.
  apply get_pool_spec in E as (G1 & G2 & _ & _ & G5).
  rewrite <- G2 in G5.
  unfold get_pool. rewrite G1.
  assert (Hm : (if bool_decide (_pid m = Some (getpid p')) then m
                else clear_managers m) = m).
  { destruct (bool_decide (_pid m = Some (getpid p'))) eqn:Eb; [ reflexivity | ].
    apply bool_decide_eq_false in Eb.
    destruct G5 as [G5 | G5]; [ contradiction | ].
    unfold clear_managers. rewrite G5. reflexivity. }
  rewrite Hm. f_equal. destruct p'. simpl in *. congruence.
Qed.

(** The first [get_pool] of a process writes into
    [settings.MYSQLPOOL_ARGUMENTS] itself, when the settings define it:
    afterwards the dictionary holds [echo=False] whatever it held,
    [poolclass] and [recycle] (its own or the defaults) and its other
    entries as they were.  Settings that do not define it still do not,
    and later calls write nothing. *)
Theorem get_pool_writes_into_settings (p : process) :
  (MYSQLPOOL p = None ->
   forall args, MYSQLPOOL_ARGUMENTS p = Some args ->
   exists args',
     MYSQLPOOL_ARGUMENTS (snd (get_pool p)) = Some args' /\
     args' !! "echo"%string = Some (CBool false) /\
     args' !! "poolclass"%string
       = Some (default QueuePool_class (args !! "poolclass"%string)) /\
     args' !! "recycle"%string
       = Some (default (CInt DEFAULT_POOL_TIMEOUT) (args !! "recycle"%string)) /\
     (forall k, k <> "echo"%string -> k <> "poolclass"%string ->
                k <> "recycle"%string -> args' !! k = args !! k)) /\
  (MYSQLPOOL p = None -> MYSQLPOOL_ARGUMENTS p = None ->
   MYSQLPOOL_ARGUMENTS (snd (get_pool p)) = None) /\
  (is_Some (MYSQLPOOL p) ->
   MYSQLPOOL_ARGUMENTS (snd (get_pool p)) = MYSQLPOOL_ARGUMENTS p).
Proof.
  conjs.
  - intros Hn args Ha. unfold get_pool. rewrite Hn, Ha. simpl.
    eexists. split; [ reflexivity | ]. conjs.
    + apply lookup_insert_eq.
    + rewrite lookup_insert_ne by discriminate.
      rewrite !setdefault_lookup. simpl. reflexivity.
    + rewrite lookup_insert_ne by discriminate.
      rewrite !setdefault_lookup. simpl. reflexivity.
    + intros k H1 H2 H3. rewrite lookup_insert_ne by congruence.
      rewrite !setdefault_lookup, !decide_False by congruence. reflexivity.
  - intros Hn Ha. unfold get_pool. rewrite Hn, Ha. reflexivity.
  - intros [m Hm]. unfold get_pool. rewrite Hm. reflexivity.
Qed.

Lemma get_pool_writes_into_settings_witness :
  exists args',
    MYSQLPOOL_ARGUMENTS (snd (get_pool (start 100 (Some Sample.echo_on) Sample.hashes)))
      = Some args' /\
    args' !! "echo"%string = Some (CBool false).
Proof.
  destruct (proj1 (get_pool_writes_into_settings
                     (start 100 (Some Sample.echo_on) Sample.hashes))
              eq_refl Sample.echo_on eq_refl) as (args' & E & He & _).
  exists args'. split; [ exact E | exact He ].
Defined.

(** In a child process that finds a registered manager with another
    process' identifier, the first [connect] drops every pool the
    manager held and returns a pool built there and then, the only one
    the manager holds afterwards.  The manager is then off
    [pool.proxies], and the identifier it records is the one it had. *)
Theorem first_connect_after_fork (p : process) (child : Z)
    (kwargs : gmap string argval) (pl : Pool) :
  registered <$> MYSQLPOOL p = Some true ->
  _pid <$> MYSQLPOOL p <> Some (Some child) ->
  fst (connect kwargs (fork child p)) = Return pl ->
  pool_id pl = next_id p /\
  next_id (snd (connect kwargs (fork child p))) = Pos.succ (next_id p) /\
  map snd <$> (pools <$> MYSQLPOOL (snd (connect kwargs (fork child p))))
    = Some [pl] /\
  registered <$> MYSQLPOOL (snd (connect kwargs (fork child p))) = Some false /\
  _pid <$> MYSQLPOOL (snd (connect kwargs (fork child p))) = _pid <$> MYSQLPOOL p.
Proof.
  intros Hr Hp.
  destruct (MYSQLPOOL p) as [m | ] eqn:Hm; [ | discriminate ].
  simpl in Hr, Hp. injection Hr as Hr.
  assert (Hne : _pid m <> Some child) by congruence.
  unfold connect.
  destruct (connect_kwargs kwargs) as [e | kwargs']; [ discriminate | ].
  unfold get_pool, fork. simpl. rewrite Hm.
  rewrite bool_decide_false by exact Hne.
  unfold clear_managers. rewrite Hr. simpl.
  unfold DBProxy_get_pool.
  destruct (key_hash (hashing p) (_serialize kwargs')); [ | discriminate ].
  simpl. intros [= <-]. simpl. auto.
Qed.

Lemma first_connect_after_fork_witness :
  let kwargs := Sample.params Sample.conv12 in
  let parent := snd (connect kwargs (start 100 None Sample.hashes)) in
  pool_id (Sample.pool12 2) = next_id parent /\
  map snd <$> (pools <$> MYSQLPOOL (snd (connect kwargs (fork 200 parent))))
    = Some [Sample.pool12 2].
Proof.
  intros kwargs parent.
  assert (H1 : registered <$> MYSQLPOOL parent = Some true)
    by (vm_compute; reflexivity).
  assert (H2 : _pid <$> MYSQLPOOL parent <> Some (Some 200))
    by (vm_compute; discriminate).
  assert (H3 : fst (connect kwargs (fork 200 parent)) = Return (Sample.pool12 2))
    by (vm_compute; reflexivity).
  destruct (first_connect_after_fork parent 200 kwargs (Sample.pool12 2) H1 H2 H3)
    as (A & _ & B & _).
  split; [ exact A | exact B ].
Defined.

(** A call that gives [sa_pool_key] is filed under that value alone:
    once a [connect] with it has returned a pool, a later [connect] in
    the same process with the same [sa_pool_key] returns that very pool,
    whatever its other arguments are, and so hands out connections made
    with the arguments of the first call. *)
Theorem sa_pool_key_names_the_pool (p : process)
    (kwargs kwargs2 : gmap string argval) (a : argval) (pl : Pool) :
  kwargs_wf kwargs = true ->
  kwargs !! "sa_pool_key"%string = Some a ->
  kwargs2 !! "sa_pool_key"%string = Some a ->
  fst (connect kwargs p) = Return pl ->
  (exists kwargs2', connect_kwargs kwargs2 = inr kwargs2') ->
  fst (connect kwargs2 (snd (connect kwargs p))) = Return pl.
Proof.
  intros Hw Hk1 Hk2 E0 [k2 Ek2].
  destruct (connect kwargs p) as [r p1] eqn:E. simpl in E0. subst r. simpl snd.
  destruct (connect_filed _ _ _ _ Hw E)
    as (P1 & H1 & k1 & h & m1 & Ek1 & Eh & M1 & S1 & F1).
  assert (Hkey : forall kw kw', kw !! "sa_pool_key"%string = Some a ->
                                connect_kwargs kw = inr kw' ->
                                _serialize kw' = KGiven a).
  { intros kw kw' Hk Ek. unfold _serialize.
    rewrite (connect_kwargs_lookup _ _ "sa_pool_key" Ek).
    rewrite decide_False by (intros [? | ?]; discriminate).
    rewrite Hk. reflexivity. }
  unfold connect. rewrite Ek2.
  destruct (get_pool_again _ _ M1 S1) as [Hfst _].
  destruct (get_pool p1) as [m p2] eqn:Eg. simpl in Hfst. subst m.
  apply get_pool_spec in Eg as (G1 & G2 & G3 & G4 & G5).
  unfold DBProxy_get_pool.
  rewrite G3, H1, (Hkey _ _ Hk2 Ek2), <- (Hkey _ _ Hk1 Ek1), Eh, F1.
  reflexivity.
Qed.

Lemma sa_pool_key_names_the_pool_witness :
  let p := start 100 None Sample.hashes in
  fst (connect (Sample.keyed "a") p) = Return (Sample.keyed_pool 1 "a") /\
  fst (connect (Sample.keyed "b") (snd (connect (Sample.keyed "a") p)))
    = Return (Sample.keyed_pool 1 "a").
Proof.
  intros p.
  assert (Hw : kwargs_wf (Sample.keyed "a") = true) by (vm_compute; reflexivity).
  assert (H1 : Sample.keyed "a" !! "sa_pool_key"%string
               = Some (AVal (VStr "reports"))) by (vm_compute; reflexivity).
  assert (H2 : Sample.keyed "b" !! "sa_pool_key"%string
               = Some (AVal (VStr "reports"))) by (vm_compute; reflexivity).
  assert (E : fst (connect (Sample.keyed "a") p) = Return (Sample.keyed_pool 1 "a"))
    by (vm_compute; reflexivity).
  assert (Ek : connect_kwargs (Sample.keyed "b") = inr (Sample.keyed "b"))
    by (vm_compute; reflexivity).
  split; [ exact E | ].
  exact (sa_pool_key_names_the_pool p (Sample.keyed "a") (Sample.keyed "b")
           (AVal (VStr "reports")) (Sample.keyed_pool 1 "a") Hw H1 H2 E
           (ex_intro _ (Sample.keyed "b") Ek)).
Defined.

End RegistryMore.
